(** * TZOOTZ MIDI Latent Mixer: a shallow embedding of the modulation engine

    The development follows [midi_latent_mixer_node.py]:

    - [parse_midi_file]: the track extractor, over a model of what
      [mido.MidiFile] delivers;
    - [get_track_strength_at_frame]: frame-to-tick mapping, note activity
      and the four trigger modes;
    - [apply_controlnet_to_conditioning]: over a store of Python objects,
      so that aliasing and mutation can be stated;
    - [mix_with_midi]: the session update, as explicit state passing.

    Numbers.  MIDI times, notes, velocities, tempo and resolution are Python
    integers and are modelled by [Z].  Python floats are modelled by exact
    rationals [Q]: every comparison the code makes between an integer tick
    and a float tick position is exact in Python as well, and the theorems
    about products and quotients are theorems about the arithmetic the code
    writes down, without rounding.  A division whose divisor is zero raises
    [ZeroDivisionError], as in Python. *)

From Stdlib Require Import ZArith QArith Qminmax Qround Lqa Lia.
From stdpp Require Import gmap strings list fin_maps.

Local Open Scope Z_scope.

(** ** Exceptions *)

Inductive exn := ZeroDivisionError | IndexError | TypeError | OSError.

Inductive result (A : Type) :=
  | Ok (a : A)
  | Raise (e : exn).
Arguments Ok {A} a.
Arguments Raise {A} e.

Definition rbind {A B} (r : result A) (k : A → result B) : result B :=
  match r with
  | Ok a => k a
  | Raise e => Raise e
  end.

Notation "'let?' x := r 'in' k" := (rbind r (fun x => k))
  (at level 10, x name, r at level 100, k at level 200).

(** Python's true division [a / b] on numbers. *)
Definition py_truediv (a b : Q) : result Q :=
  if Qeq_bool b 0 then Raise ZeroDivisionError else Ok (a / b)%Q.

(** [a <= b] and [a < b] on numbers. *)
Definition Qleb (a b : Q) : bool := Qle_bool a b.
Definition Qltb (a b : Q) : bool := negb (Qle_bool b a).

(** Python's [max(0, x)]: the first argument unless the second is greater. *)
Definition py_max0 (x : Q) : Q := if Qltb 0 x then x else 0%Q.

Definition Qsum (l : list Q) : Q := foldr Qplus 0%Q l.

(** [np.mean] of a list of numbers. *)
Definition np_mean (l : list Q) : Q := (Qsum l / inject_Z (Z.of_nat (length l)))%Q.

(** ** Events *)

Inductive EventType := note_on | note_off.

Definition EventType_eqb (a b : EventType) : bool :=
  match a, b with
  | note_on, note_on | note_off, note_off => true
  | _, _ => false
  end.

(** One entry of a track's event list: the dictionary with keys
    ['time'], ['type'], ['note'] and ['velocity']. *)
Record MidiEvent := mkEvent {
  time : Z;
  type : EventType;
  note : Z;
  velocity : Z
}.

(** ** Frame to MIDI time (lines 230-232) *)

Definition midi_time_of_frame (frame fps tempo ticks_per_beat : Z) : result Q :=
  let? seconds := py_truediv (inject_Z frame) (inject_Z fps) in
  let? per_beat := py_truediv (seconds * 1000000)%Q (inject_Z tempo) in
  Ok (per_beat * inject_Z ticks_per_beat)%Q.

(** ** Active notes (lines 234-249) *)

(** The inner loop [for j in range(i+1, len(track_data))]: the time of the
    first later event on the same note that is a note_off or has velocity 0. *)
Fixpoint find_note_off (n : Z) (later : list MidiEvent) : option Z :=
  match later with
  | [] => None
  | x :: rest =>
      if (note x =? n) && (EventType_eqb (type x) note_off || (velocity x =? 0))
      then Some (time x)
      else find_note_off n rest
  end.

Definition note_off_time (track_data : list MidiEvent) (i : nat) (event : MidiEvent)
  : option Z :=
  find_note_off (note event) (drop (S i) track_data).

(** The test under which the event at index [i] is appended to
    [active_notes]. *)
Definition is_active (track_data : list MidiEvent) (midi_time : Q)
    (i : nat) (event : MidiEvent) : bool :=
  Qleb (inject_Z (time event)) midi_time
  && (EventType_eqb (type event) note_on && (0 <? velocity event))
  && match note_off_time track_data i event with
     | None => true
     | Some t => Qltb midi_time (inject_Z t)
     end.

(** The active events with the index each one has in the track: the
    dictionaries of a track are distinct objects, so the index is the
    identity of an event. *)
Definition active_entries (track_data : list MidiEvent) (midi_time : Q)
  : list (nat * MidiEvent) :=
  List.filter (fun ie => is_active track_data midi_time ie.1 ie.2)
              (imap pair track_data).

Definition active_notes (track_data : list MidiEvent) (midi_time : Q)
  : list MidiEvent :=
  (active_entries track_data midi_time).*2.

(** ** Trigger modes (lines 251-275) *)

(** [max(active_notes, key=lambda x: x['time'])]: the first event of
    greatest time. *)
Fixpoint max_by_time (best : MidiEvent) (rest : list MidiEvent) : MidiEvent :=
  match rest with
  | [] => best
  | x :: rest' =>
      if time best <? time x then max_by_time x rest' else max_by_time best rest'
  end.

(** The count of the Toggle branch. *)
Definition note_on_count (track_data : list MidiEvent) (midi_time : Q) : nat :=
  length (List.filter
            (fun e => Qleb (inject_Z (time e)) midi_time
                      && EventType_eqb (type e) note_on
                      && (0 <? velocity e))
            track_data).

Definition velocity_ratio (n : MidiEvent) : Q := (inject_Z (velocity n) / 127)%Q.

(** The part of [get_track_strength_at_frame] after [midi_time] is known. *)
Definition strength_at_midi_time (track_data : list MidiEvent) (midi_time : Q)
    (trigger_mode : string) (ticks_per_beat : Z) (decay_rate : Q) : result Q :=
  match active_notes track_data midi_time with
  | [] => Ok 0%Q
  | first :: others =>
      if String.eqb trigger_mode "Velocity" then
        Ok (np_mean (velocity_ratio <$> first :: others))
      else if String.eqb trigger_mode "Pulse" then
        let most_recent := max_by_time first others in
        let? time_since :=
          py_truediv (midi_time - inject_Z (time most_recent))%Q
                     (inject_Z ticks_per_beat) in
        let decay := py_max0 (1 - time_since * decay_rate)%Q in
        Ok (velocity_ratio most_recent * decay)%Q
      else if String.eqb trigger_mode "Hold" then
        Ok 1%Q
      else if String.eqb trigger_mode "Toggle" then
        Ok (if Nat.odd (note_on_count track_data midi_time) then 1%Q else 0%Q)
      else Ok 0%Q
  end.

Definition get_track_strength_at_frame (track_data : list MidiEvent)
    (frame fps : Z) (trigger_mode : string) (ticks_per_beat tempo : Z)
    (decay_rate : Q) : result Q :=
  match track_data with
  | [] => Ok 0%Q
  | _ =>
      let? midi_time := midi_time_of_frame frame fps tempo ticks_per_beat in
      strength_at_midi_time track_data midi_time trigger_mode
                            ticks_per_beat decay_rate
  end.

(** ** The track extractor (lines 165-222) *)

(** A message of a [mido] track: its delta time, and what the parser looks
    at.  Messages that are neither notes nor [set_tempo] keep their delta
    only. *)
Inductive Msg :=
  | NoteMsg (ty : EventType) (delta n v : Z)
  | SetTempo (delta tempo_value : Z)
  | OtherMsg (delta : Z).

Definition msg_time (m : Msg) : Z :=
  match m with
  | NoteMsg _ delta _ _ => delta
  | SetTempo delta _ => delta
  | OtherMsg delta => delta
  end.

(** What [mido.MidiFile(path)] gives: the tracks and the resolution. *)
Record MidiFile := mkMidiFile {
  mid_tracks : list (list Msg);
  mid_ticks_per_beat : Z
}.

(** What is found at a path: nothing, something [mido] cannot load (it
    raises), or a MIDI file. *)
Inductive FileEntry :=
  | NoFile
  | Unreadable
  | MidiContent (mid : MidiFile).

(** The surroundings of a call: whether [mido] was imported, and the file
    system. *)
Record World := mkWorld {
  MIDI_AVAILABLE : bool;
  file_at : string → FileEntry
}.

Record ParsedMidi := mkParsed {
  tracks : list (list MidiEvent);
  tempo : Z;
  ticks_per_beat : Z;
  bpm : Q
}.

(** The scan of track 0 for the first [set_tempo]. *)
Fixpoint first_set_tempo (msgs : list Msg) (default : Z) : Z :=
  match msgs with
  | [] => default
  | SetTempo _ t :: _ => t
  | _ :: rest => first_set_tempo rest default
  end.

(** The loop over one track's messages, with the running [current_time]. *)
Fixpoint track_events (current_time : Z) (msgs : list Msg) : list MidiEvent :=
  match msgs with
  | [] => []
  | m :: rest =>
      let current_time := current_time + msg_time m in
      match m with
      | NoteMsg ty _ n v => mkEvent current_time ty n v :: track_events current_time rest
      | _ => track_events current_time rest
      end
  end.

(** The body of the [try] block. *)
Definition parse_midi_body (entry : FileEntry) : result ParsedMidi :=
  match entry with
  | NoFile | Unreadable => Raise OSError
  | MidiContent mid =>
      let? track0 := match mid_tracks mid with
                     | [] => Raise IndexError
                     | t0 :: _ => Ok t0
                     end in
      let tempo := first_set_tempo track0 500000 in
      let? bpm := py_truediv 60000000 (inject_Z tempo) in
      Ok {| tracks := track_events 0 <$> take 4 (mid_tracks mid);
            tempo := tempo;
            ticks_per_beat := mid_ticks_per_beat mid;
            bpm := bpm |}
  end.

Definition path_exists (w : World) (midi_path : string) : bool :=
  match file_at w midi_path with
  | NoFile => false
  | _ => true
  end.

Definition parse_midi_file (w : World) (midi_path : string) : option ParsedMidi :=
  if negb (MIDI_AVAILABLE w) then None
  else if String.eqb midi_path "" || negb (path_exists w midi_path) then None
  else match parse_midi_body (file_at w midi_path) with
       | Ok parsed => Some parsed
       | Raise _ => None
       end.

(** ** State and exceptions

    A computation on a state [S] that returns an [A] or raises; what it did
    to the state before raising stays done. *)

Definition M (S A : Type) : Type := S → S * result A.

Definition mret' {S A} (a : A) : M S A := fun s => (s, Ok a).

Definition mraise {S A} (e : exn) : M S A := fun s => (s, Raise e).

Definition mbind' {S A B} (m : M S A) (k : A → M S B) : M S B :=
  fun s => match m s with
           | (s', Ok a) => k a s'
           | (s', Raise e) => (s', Raise e)
           end.

Definition mlift {S A} (r : result A) : M S A := fun s => (s, r).

Notation "'let!' x := m 'in' k" := (mbind' m (fun x => k))
  (at level 10, x name, m at level 100, k at level 200).

(** ** The store of Python objects

    Conditioning is a list of two-element lists [[cond, options]], with
    [options] a dictionary.  Lists and dictionaries are objects with an
    identity: they live in a store, and a value refers to them by location.
    Tensors, numbers and the host's handles are immutable here. *)

Definition loc := nat.

Record Tensor := mkTensor {
  shape : list nat;
  storage : nat
}.

Inductive val :=
  | VNone
  | VNum (q : Q)
  | VTensor (t : Tensor)
  | VHandle (h : nat)
  | VRef (l : loc).

Inductive obj :=
  | OList (items : list val)
  | ODict (entries : gmap string val).

Abbreviation Heap := (gmap loc obj).

Definition alloc (o : obj) : M Heap loc :=
  fun h => let l := fresh (dom h) in (<[l := o]> h, Ok l).

Definition load (v : val) : M Heap obj :=
  fun h => match v with
           | VRef l => match h !! l with
                       | Some o => (h, Ok o)
                       | None => (h, Raise TypeError)
                       end
           | _ => (h, Raise TypeError)
           end.

Definition get_list (v : val) : M Heap (list val) :=
  let! o := load v in
  match o with
  | OList items => mret' items
  | ODict _ => mraise TypeError
  end.

Definition get_dict (v : val) : M Heap (gmap string val) :=
  let! o := load v in
  match o with
  | ODict entries => mret' entries
  | OList _ => mraise TypeError
  end.

(** [v[i]] on a list. *)
Definition getitem (v : val) (i : nat) : M Heap val :=
  let! items := get_list v in
  match items !! i with
  | Some x => mret' x
  | None => mraise IndexError
  end.

(** [v[k] = x] on a dictionary: the object at [v] is updated in place. *)
Definition dict_setitem (v : val) (k : string) (x : val) : M Heap unit :=
  let! entries := get_dict v in
  match v with
  | VRef l => fun h => (<[l := ODict (<[k := x]> entries)]> h, Ok tt)
  | _ => mraise TypeError
  end.

(** [v.append(x)] on a list: in place as well. *)
Definition list_append (v : val) (x : val) : M Heap unit :=
  let! items := get_list v in
  match v with
  | VRef l => fun h => (<[l := OList (items ++ [x])]> h, Ok tt)
  | _ => mraise TypeError
  end.

(** [a + b] on lists: a new list. *)
Definition list_concat (a b : val) : M Heap val :=
  let! xs := get_list a in
  let! ys := get_list b in
  let! l := alloc (OList (xs ++ ys)) in
  mret' (VRef l).

(** [d.copy()] on a dictionary: a new dictionary with the same entries. *)
Definition dict_copy (v : val) : M Heap val :=
  let! entries := get_dict v in
  let! l := alloc (ODict entries) in
  mret' (VRef l).

Fixpoint for_each {S A} (xs : list A) (body : A → M S unit) : M S unit :=
  match xs with
  | [] => mret' tt
  | x :: rest => let! _ := body x in for_each rest body
  end.

(** ** ControlNet on conditioning (lines 293-336) *)

(** [t.movedim(-1, 1)] on shapes: the last dimension moves to position 1. *)
Definition movedim_last_to_1 (s : list nat) : result (list nat) :=
  match s with
  | [] => Raise IndexError
  | s0 :: rest =>
      match last rest with
      | None => Raise IndexError
      | Some channels => Ok (s0 :: channels :: removelast rest)
      end
  end.

Definition control_hint_of (image : Tensor) : result Tensor :=
  let batched := if Nat.eqb (length (shape image)) 4
                 then shape image
                 else (1 :: shape image)%nat in
  let? s := movedim_last_to_1 batched in
  Ok {| shape := s; storage := storage image |}.

(** The body of [for t in positive] and of [for t in negative]. *)
Definition add_control (cnets : val) (c_out : val) (t : val) : M Heap unit :=
  let! t0 := getitem t 0 in
  let! t1 := getitem t 1 in
  let! options := dict_copy t1 in
  let! nl := alloc (OList [t0; options]) in
  let n := VRef nl in
  let! n1 := getitem n 1 in
  let! entries := get_dict n1 in
  let! _ := match entries !! "control" with
            | Some existing =>
                let! extended := list_concat existing cnets in
                let! n1' := getitem n 1 in
                dict_setitem n1' "control" extended
            | None =>
                let! n1' := getitem n 1 in
                dict_setitem n1' "control" cnets
            end in
  list_append c_out n.

Definition apply_controlnet_guard (control_net : option nat) (image : option Tensor)
    (strength track_strength : Q) : bool :=
  match control_net, image with
  | Some _, Some _ => Qltb 0 strength && Qltb 0 track_strength
  | _, _ => false
  end.

Definition apply_controlnet_to_conditioning (positive negative : val)
    (control_net : option nat) (image : option Tensor)
    (strength track_strength : Q) : M Heap (val * val) :=
  match control_net, image with
  | Some cn, Some img =>
      if Qltb 0 strength && Qltb 0 track_strength then
        let final_strength := (strength * track_strength)%Q in
        let! control_hint := mlift (control_hint_of img) in
        let! entry := alloc (OList [VHandle cn; VTensor control_hint;
                                    VNum final_strength; VNum 0; VNum 1]) in
        let! cnets := alloc (OList [VRef entry]) in
        let! c_pos := alloc (OList []) in
        let! pos_items := get_list positive in
        let! _ := for_each pos_items (add_control (VRef cnets) (VRef c_pos)) in
        let! c_neg := alloc (OList []) in
        let! neg_items := get_list negative in
        let! _ := for_each neg_items (add_control (VRef cnets) (VRef c_neg)) in
        mret' (VRef c_pos, VRef c_neg)
      else mret' (positive, negative)
  | _, _ => mret' (positive, negative)
  end.

(** ** The session (lines 60-66 and 358-425)

    The fields of [self].  [parse_log] is not a field of the class: it
    records, in order, the paths [parse_midi_file] was called with, so that
    the number of parses can be stated. *)

Record Session := mkSession {
  midi_data : option ParsedMidi;
  current_frame : Z;
  track_states : list Q;
  _cached_midi_path : option string;
  parse_log : list string
}.

(** [__init__]. *)
Definition init_session : Session :=
  {| midi_data := None;
     current_frame := 0;
     track_states := [0%Q; 0%Q; 0%Q; 0%Q];
     _cached_midi_path := None;
     parse_log := [] |}.

(** [self._cached_midi_path != midi_path]. *)
Definition cached_path_differs (cached : option string) (midi_path : string) : bool :=
  match cached with
  | None => true
  | Some p => negb (String.eqb p midi_path)
  end.

(** The first statements of [mix_with_midi], up to the [else] branch. *)
Definition load_midi (w : World) (midi_path : string) (frame_number : Z)
    (s : Session) : Session :=
  if negb (String.eqb midi_path "")
     && cached_path_differs (_cached_midi_path s) midi_path
  then {| midi_data := parse_midi_file w midi_path;
          current_frame := frame_number;
          track_states := track_states s;
          _cached_midi_path := Some midi_path;
          parse_log := parse_log s ++ [midi_path] |}
  else {| midi_data := midi_data s;
          current_frame := frame_number;
          track_states := track_states s;
          _cached_midi_path := _cached_midi_path s;
          parse_log := parse_log s |}.

(** [self.track_states[i] = x]. *)
Definition set_track_state (i : nat) (x : Q) (s : Session) : result Session :=
  if decide (i < length (track_states s))%nat
  then Ok {| midi_data := midi_data s;
             current_frame := current_frame s;
             track_states := <[i := x]> (track_states s);
             _cached_midi_path := _cached_midi_path s;
             parse_log := parse_log s |}
  else Raise IndexError.

(** What a call returns, as far as the session decides it: the handles,
    the BPM shown in [debug_info], and the values shown in [mix_values]. *)
Record Output (Locals : Type) := mkOutput {
  out_locals : Locals;
  out_bpm : Q;
  out_mix_values : list Q
}.
Arguments mkOutput {Locals} _ _ _.
Arguments out_locals {Locals} _.
Arguments out_bpm {Locals} _.
Arguments out_mix_values {Locals} _.

Section Mixer.
(** The host's side: its store, and the handles [mix_with_midi] carries
    from slot to slot ([processed_model], [processed_positive],
    [processed_negative]). *)
Context {HostStore Locals : Type}.

(** The arguments of one call.  [connect i x] stands for lines 396-417:
    what the optional inputs of slot [i] do with the slot's strength. *)
Record Call := mkCall {
  frame_number : Z;
  fps : Z;
  trigger_mode : string;
  mix_strength : Q;
  decay_rate : Q;
  midi_path : option string;
  connect : nat → Q → Locals → M HostStore Locals
}.

(** The body of [for i in range(4)]. *)
Definition track_step (d : ParsedMidi) (c : Call) (i : nat) (locals : Locals)
  : M (Session * HostStore) Locals :=
  fun st =>
    match tracks d !! i with
    | None => (st, Ok locals)
    | Some track_data =>
        match get_track_strength_at_frame track_data (frame_number c) (fps c)
                (trigger_mode c) (ticks_per_beat d) (tempo d) (decay_rate c) with
        | Raise e => (st, Raise e)
        | Ok strength =>
            match set_track_state i (strength * mix_strength c)%Q st.1 with
            | Raise e => (st, Raise e)
            | Ok s' =>
                match connect c i (strength * mix_strength c)%Q locals st.2 with
                | (h', r) => ((s', h'), r)
                end
            end
        end
    end.

Fixpoint track_loop (d : ParsedMidi) (c : Call) (slots : list nat)
    (locals : Locals) : M (Session * HostStore) Locals :=
  match slots with
  | [] => mret' locals
  | i :: rest =>
      let! locals' := track_step d c i locals in
      track_loop d c rest locals'
  end.

Definition reported_bpm (s : Session) : Q :=
  match midi_data s with
  | Some d => bpm d
  | None => 120%Q
  end.

Definition mix_with_midi (w : World) (c : Call) (locals : Locals)
  : M (Session * HostStore) (Output Locals) :=
  fun st =>
    let path := default "" (midi_path c) in
    let s1 := load_midi w path (frame_number c) st.1 in
    let shown_bpm := reported_bpm s1 in
    let run := match midi_data s1 with
               | Some d => track_loop d c (seq 0 4) locals
               | None => mret' locals
               end in
    match run (s1, st.2) with
    | (st', Ok locals') =>
        (st', Ok (mkOutput locals' shown_bpm (track_states st'.1)))
    | (st', Raise e) => (st', Raise e)
    end.

(** A run of calls on one session, each with its surroundings and its
    handles; it stops at the first call that raises. *)
Fixpoint run_calls (calls : list (World * Call * Locals))
    (st : Session * HostStore) : (Session * HostStore) * result unit :=
  match calls with
  | [] => (st, Ok tt)
  | (w, c, locals) :: rest =>
      match mix_with_midi w c locals st with
      | (st', Ok _) => run_calls rest st'
      | (st', Raise e) => (st', Raise e)
      end
  end.
End Mixer.

Arguments Call : clear implicits.

(** ** The node's optional inputs (lines 396-417) *)

(** The optional inputs of one slot.  The outer [option] says whether the
    key is among the keyword arguments, the inner one whether its value is
    [None]. *)
Record SlotInputs := mkSlot {
  ipadapter : option (option nat);
  image : option (option Tensor);
  ipa_weight : option Q;
  control_net : option (option nat);
  cn_image : option (option Tensor);
  cn_strength : option Q
}.

(** The placeholder: the model comes back as it went in. *)
Definition apply_ipadapter_to_model (model : nat) (ipa : option nat)
    (img : option Tensor) (weight track_strength : Q) : nat := model.

Definition node_connect (kwargs : nat → SlotInputs) (i : nat) (track_state : Q)
    (locals : nat * val * val) : M Heap (nat * val * val) :=
  let '(model, positive, negative) := locals in
  let slot := kwargs i in
  let model' :=
    match ipadapter slot, image slot with
    | Some ipa, Some img =>
        apply_ipadapter_to_model model ipa img (default 1%Q (ipa_weight slot))
                                 track_state
    | _, _ => model
    end in
  match control_net slot, cn_image slot with
  | Some cn, Some img =>
      let! pn := apply_controlnet_to_conditioning positive negative cn img
                   (default 1%Q (cn_strength slot)) track_state in
      mret' (model', pn.1, pn.2)
  | _, _ => mret' (model', positive, negative)
  end.

(** ** The status block (lines 338-356)

    Of [create_debug_visualization], the rows of the bar graph: which bar
    each strength gets.  The header, the numbers printed beside the bars
    and the frame line are text formatting and are left out. *)

(** [int(x)] on a number: truncation towards zero. *)
Definition py_int (x : Q) : Z := Z.quot (Qnum x) (Z.pos (Qden x)).

(** [xs[i]] on a list, with Python's negative indices. *)
Definition py_index {A} (xs : list A) (i : Z) : result A :=
  let n := Z.of_nat (length xs) in
  let j := if i <? 0 then i + n else i in
  if (j <? 0) || (n <=? j) then Raise IndexError
  else match xs !! Z.to_nat j with
       | Some x => Ok x
       | None => Raise IndexError
       end.

Definition bars : list string :=
  ["░░░░░░░░░░"; "██░░░░░░░░"; "████░░░░░░"; "██████░░░░";
   "████████░░"; "██████████"].

Definition track_names : list string := ["Kick "; "Snare"; "Bass "; "Lead "].

(** [bars[min(int(state * 5), 5)]]. *)
Definition bar_of_state (state : Q) : result string :=
  let bar_index := py_int (state * 5) in
  py_index bars (Z.min bar_index 5).

(** The loop over [zip(track_names, track_states)]: the number of the row,
    the name and the bar. *)
Fixpoint debug_rows_from (i : nat) (rows : list (string * Q))
  : result (list (nat * string * string)) :=
  match rows with
  | [] => Ok []
  | (name, state) :: rest =>
      let? bar := bar_of_state state in
      let? later := debug_rows_from (S i) rest in
      Ok ((S i, name, bar) :: later)
  end.

Definition debug_rows (track_states : list Q)
  : result (list (nat * string * string)) :=
  debug_rows_from 0 (zip track_names track_states).

(** ** The installer (install.py) *)

(** What running pip for a package comes to: exit status 0, another exit
    status ([CalledProcessError]), or pip could not be run at all (any
    other exception, which [install_package] does not catch). *)
Inductive PipOutcome := PipDone | PipExit | PipNotRun.

(** What the installer prints, line by line, without the wording. *)
Inductive InstallerLine :=
  | Installing (package : string)
  | Installed (package : string)
  | FailedToInstall (package : string)
  | Summary (success_count total_count : nat)
  | AllInstalled
  | SomeFailed
  | InstallManually (package : string).

Definition print_line (l : InstallerLine) : M (list InstallerLine) unit :=
  fun out => (out ++ [l], Ok tt).

Definition install_package (pip : string → PipOutcome) (package : string)
  : M (list InstallerLine) bool :=
  let! _ := print_line (Installing package) in
  match pip package with
  | PipDone => let! _ := print_line (Installed package) in mret' true
  | PipExit => let! _ := print_line (FailedToInstall package) in mret' false
  | PipNotRun => mraise OSError
  end.

(** The loop [for package in packages] with its counter. *)
Fixpoint install_each (pip : string → PipOutcome) (packages : list string)
    (success_count : nat) : M (list InstallerLine) nat :=
  match packages with
  | [] => mret' success_count
  | package :: rest =>
      let! ok := install_package pip package in
      install_each pip rest (if ok then S success_count else success_count)
  end.

(** [main], for a list of packages. *)
Definition install_main (pip : string → PipOutcome) (packages : list string)
  : M (list InstallerLine) unit :=
  let total_count := length packages in
  let! success_count := install_each pip packages 0 in
  let! _ := print_line (Summary success_count total_count) in
  if Nat.eqb success_count total_count
  then print_line AllInstalled
  else let! _ := print_line SomeFailed in
       for_each packages (fun package => print_line (InstallManually package)).

Definition required_packages : list string :=
  ["mido>=1.2.10"; "python-rtmidi>=1.4.0"].

Definition main (pip : string → PipOutcome) : M (list InstallerLine) unit :=
  install_main pip required_packages.

(** * Vocabulary of the statements *)

(** [x] ends the note that [e] started: the same note number, and an
    explicit note_off or a velocity of 0. *)
Definition ends_note (e x : MidiEvent) : Prop :=
  note x = note e ∧ (type x = note_off ∨ velocity x = 0).

(** The event the Pulse branch takes: the most recent of the active ones. *)
Definition most_recent_active (track_data : list MidiEvent) (midi_time : Q)
  : option MidiEvent :=
  match active_notes track_data midi_time with
  | [] => None
  | first :: others => Some (max_by_time first others)
  end.

(** A NoteOn at tick 0 and its NoteOff at tick 960. *)
Definition scenario_track : list MidiEvent :=
  [mkEvent 0 note_on 60 100; mkEvent 960 note_off 60 0].

(** Velocities as MIDI has them: 7 bits. *)
Definition velocities_in_range (track_data : list MidiEvent) : Prop :=
  ∀ e, e ∈ track_data → 0 ≤ velocity e ≤ 127.

(** The two sessions have the same cache: parsed MIDI, path, and parses
    made so far. *)
Definition same_cache (s s' : Session) : Prop :=
  midi_data s' = midi_data s
  ∧ _cached_midi_path s' = _cached_midi_path s
  ∧ parse_log s' = parse_log s.

(** Parsed data as a MIDI file gives it: a tempo that is not 0, a positive
    resolution, velocities of 7 bits. *)
Definition well_formed_midi (d : ParsedMidi) : Prop :=
  tempo d ≠ 0 ∧ 0 < ticks_per_beat d
  ∧ ∀ track_data, track_data ∈ tracks d → velocities_in_range track_data.

(** The session a call leaves behind, whether the call returns or raises,
    and what it returns. *)
Definition session_after {HostStore Locals : Type} (w : World)
    (c : Call HostStore Locals) (locals : Locals) (st : Session * HostStore)
  : Session :=
  (mix_with_midi w c locals st).1.1.

Definition outcome {HostStore Locals : Type} (w : World)
    (c : Call HostStore Locals) (locals : Locals) (st : Session * HostStore)
  : result (Output Locals) :=
  (mix_with_midi w c locals st).2.

(** The number of calls of [parse_midi_file] so far. *)
Definition parse_count (s : Session) : nat := length (parse_log s).

(** The path a call asks for: [kwargs.get('midi_path', '')]. *)
Definition requested_path {HostStore Locals : Type}
    (c : Call HostStore Locals) : string :=
  default "" (midi_path c).

Definition no_inputs : nat → SlotInputs :=
  fun _ => mkSlot None None None None None None.

(** A call of the node with the given optional inputs. *)
Definition node_call (frame fps : Z) (mode : string) (mix decay : Q)
    (path : option string) (kwargs : nat → SlotInputs)
  : Call Heap (nat * val * val) :=
  mkCall frame fps mode mix decay path (node_connect kwargs).

(** Two tracks at 100 BPM, each with a note held from tick 0. *)
Definition two_track_file : MidiFile :=
  mkMidiFile
    [[SetTempo 0 600000; NoteMsg note_on 0 60 100; NoteMsg note_off 960 60 0];
     [NoteMsg note_on 0 62 90; NoteMsg note_off 960 62 0]]
    480.

(** One track, no tempo event. *)
Definition one_track_file : MidiFile :=
  mkMidiFile [[NoteMsg note_on 0 60 100; NoteMsg note_off 960 60 0]] 480.

Definition demo_world : World :=
  mkWorld true
    (fun p => if String.eqb p "two.mid" then MidiContent two_track_file
              else if String.eqb p "one.mid" then MidiContent one_track_file
              else if String.eqb p "broken.mid" then Unreadable
              else NoFile).

(** What [parse_midi_file] makes of "one.mid". *)
Definition one_track_parsed : ParsedMidi :=
  mkParsed [scenario_track] 500000 480 (60000000 # 500000).

Definition demo_locals : nat * val * val := (0%nat, VNone, VNone).

Definition fresh_state : Session * Heap := (init_session, ∅).

(** The session after frame 15 of "two.mid" in Hold mode. *)
Definition state_after_two_tracks : Session * Heap :=
  (mix_with_midi demo_world
     (node_call 15 30 "Hold" 1 2 (Some "two.mid") no_inputs)
     demo_locals fresh_state).1.

(** What [add_control] builds for the entry [t]: a new list at [nl] with
    the first item of [t] and a copy, at [ndl], of its dictionary, where
    ['control'] is bound to the given list when the dictionary had none,
    and otherwise to a new list: the old controls, then the given ones. *)
Definition new_entry (h h' : Heap) (cnets_l : loc) (t : val) (nl : loc) : Prop :=
  ∃ tl t0 dl rest d ndl ctl,
    t = VRef tl
    ∧ h !! tl = Some (OList (t0 :: VRef dl :: rest))
    ∧ h !! dl = Some (ODict d)
    ∧ h !! nl = None ∧ h !! ndl = None
    ∧ h' !! nl = Some (OList [t0; VRef ndl])
    ∧ h' !! ndl = Some (ODict (<["control" := ctl]> d))
    ∧ match d !! "control" with
      | None => ctl = VRef cnets_l
      | Some old =>
          ∃ cl old_items cn_items,
            ctl = VRef cl ∧ h !! cl = None
            ∧ h' !! cl = Some (OList (old_items ++ cn_items))
            ∧ (∀ ol o, old = VRef ol → h !! ol = Some o → o = OList old_items)
            ∧ (∀ o, h !! cnets_l = Some o → o = OList cn_items)
      end.

(** A conditioning entry as the host builds it: a list whose second
    item is a dictionary; a ['control'] in it is a list. *)
Definition entry_ok (h : Heap) (t : val) : Prop :=
  ∃ tl t0 dl rest d,
    t = VRef tl
    ∧ h !! tl = Some (OList (t0 :: VRef dl :: rest))
    ∧ h !! dl = Some (ODict d)
    ∧ ∀ old, d !! "control" = Some old →
             ∃ ol items, old = VRef ol ∧ h !! ol = Some (OList items).

(** The control tuples the dictionary [d] already had. *)
Definition old_controls (h : Heap) (d : gmap string val) : list val :=
  match d !! "control" with
  | Some (VRef ol) =>
      match h !! ol with
      | Some (OList items) => items
      | _ => []
      end
  | _ => []
  end.

(** The output entry [n] for the input entry [t]: a list, a dictionary and
    a control list that the store [h0] of before the call did not have; the
    dictionary is the input's with ['control'] rebound, to the old control
    tuples followed by the added ones. *)
Definition controlled_entry (h0 h' : Heap) (added : list val) (t n : val) : Prop :=
  ∃ tl t0 dl rest d nl ndl cl,
    t = VRef tl
    ∧ h0 !! tl = Some (OList (t0 :: VRef dl :: rest))
    ∧ h0 !! dl = Some (ODict d)
    ∧ n = VRef nl
    ∧ h0 !! nl = None ∧ h0 !! ndl = None ∧ h0 !! cl = None
    ∧ h' !! nl = Some (OList [t0; VRef ndl])
    ∧ h' !! ndl = Some (ODict (<["control" := VRef cl]> d))
    ∧ h' !! cl = Some (OList (old_controls h0 d ++ added)).

(** Conditioning as the host builds it: a list of entries. *)
Definition conditioning_ok (h : Heap) (v : val) (items : list val) : Prop :=
  ∃ l, v = VRef l ∧ h !! l = Some (OList items) ∧ Forall (entry_ok h) items.

(** A store with a positive conditioning of one entry that already has a
    control tuple, and a negative conditioning of one entry that has
    none. *)
Definition demo_heap : Heap :=
  <[0%nat := OList [VRef 1%nat]]>
  (<[1%nat := OList [VHandle 20; VRef 2%nat]]>
  (<[2%nat := ODict (<["control" := VRef 3%nat]> (<["pooled_output" := VHandle 21]> ∅))]>
  (<[3%nat := OList [VRef 4%nat]]>
  (<[4%nat := OList [VHandle 30; VHandle 31; VNum 1; VNum 0; VNum 1]]>
  (<[5%nat := OList [VRef 6%nat]]>
  (<[6%nat := OList [VHandle 22; VRef 7%nat]]>
  (<[7%nat := ODict ∅]> ∅))))))).

Definition demo_image : Tensor := mkTensor [1; 64; 48; 3]%nat 40.

Definition demo_controlnet_run : Heap * result (val * val) :=
  apply_controlnet_to_conditioning (VRef 0%nat) (VRef 5%nat) (Some 50%nat)
    (Some demo_image) (1 # 2) 1 demo_heap.

(** A ControlNet connected to slot 0 only, with strength 0.5. *)
Definition control_on_slot_0 : nat → SlotInputs :=
  fun i => if Nat.eqb i 0
           then mkSlot None None None (Some (Some 50%nat))
                       (Some (Some demo_image)) (Some (1 # 2))
           else no_inputs i.

(** The message is a tempo event. *)
Definition is_set_tempo (m : Msg) : bool :=
  match m with
  | SetTempo _ _ => true
  | _ => false
  end.

(** The ticks a run of messages takes: the sum of their deltas. *)
Definition total_delta (msgs : list Msg) : Z :=
  foldr (fun m acc => msg_time m + acc) 0 msgs.

(** No message goes back in time. *)
Definition deltas_nonneg (msgs : list Msg) : Prop :=
  ∀ m, m ∈ msgs → 0 ≤ msg_time m.

(** The note messages have velocities of 7 bits. *)
Definition note_velocities_ok (msgs : list Msg) : Prop :=
  ∀ ty delta n v, NoteMsg ty delta n v ∈ msgs → 0 ≤ v ≤ 127.

(** The test of the Toggle count: a NoteOn of positive velocity that has
    started. *)
Definition started_note_on (midi_time : Q) (e : MidiEvent) : bool :=
  Qleb (inject_Z (time e)) midi_time
  && EventType_eqb (type e) note_on
  && (0 <? velocity e).

(** The four modes the code knows. *)
Definition known_mode (mode : string) : Prop :=
  mode = "Velocity" ∨ mode = "Pulse" ∨ mode = "Hold" ∨ mode = "Toggle".

(** An IPAdapter and a ControlNet connected to slot 0. *)
Definition adapters_on_slot_0 : nat → SlotInputs :=
  fun i => if Nat.eqb i 0
           then mkSlot (Some (Some 60%nat)) (Some (Some demo_image))
                       (Some (3 # 2)) (Some (Some 50%nat))
                       (Some (Some demo_image)) (Some (1 # 2))
           else no_inputs i.

(** The shape [movedim] is applied to: the image's, with a batch dimension
    of 1 in front unless the image has four dimensions. *)
Definition batched_shape (image : Tensor) : list nat :=
  if Nat.eqb (length (shape image)) 4 then shape image
  else (1 :: shape image)%nat.

(** pip installed the package. *)
Definition pip_done (pip : string → PipOutcome) (package : string) : bool :=
  match pip package with
  | PipDone => true
  | _ => false
  end.

(** The two lines an attempt prints when pip could be run. *)
Definition attempt_lines (pip : string → PipOutcome) (package : string)
  : list InstallerLine :=
  [Installing package;
   if pip_done pip package then Installed package else FailedToInstall package].

(** * Properties *)

(** ** Numbers *)

Lemma Qeq_bool_inject_Z_nonzero (z : Z) : z ≠ 0 → Qeq_bool (inject_Z z) 0 = false.
Proof.
  intros Hz. destruct (Qeq_bool (inject_Z z) 0) eqn:E; [|done].
  apply Qeq_bool_iff in E. unfold Qeq in E. simpl in E. lia.
Qed.

Lemma py_truediv_inject_Z (a : Q) (z : Z) :
  z ≠ 0 → py_truediv a (inject_Z z) = Ok (a / inject_Z z)%Q.
Proof. intros Hz. unfold py_truediv. by rewrite Qeq_bool_inject_Z_nonzero. Qed.

Lemma inject_Z_pos (z : Z) : 0 < z → (0 < inject_Z z)%Q.
Proof. intros Hz. unfold Qlt. simpl. lia. Qed.

Lemma inject_Z_nonneg (z : Z) : 0 ≤ z → (0 <= inject_Z z)%Q.
Proof. intros Hz. unfold Qle. simpl. lia. Qed.

Lemma inject_Z_le (a b : Z) : a ≤ b → (inject_Z a <= inject_Z b)%Q.
Proof. intros H. unfold Qle. simpl. lia. Qed.

Lemma Qleb_true (a b : Q) : Qleb a b = true ↔ (a <= b)%Q.
Proof. apply Qle_bool_iff. Qed.

Lemma Qltb_true (a b : Q) : Qltb a b = true ↔ (a < b)%Q.
Proof.
  unfold Qltb. rewrite negb_true_iff. split.
  - intros E. apply Qnot_le_lt. intros H. apply Qle_bool_iff in H. congruence.
  - intros H. destruct (Qle_bool b a) eqn:E; [|done].
    apply Qle_bool_iff in E. exfalso. eapply Qlt_not_le; eauto.
Qed.

Lemma Qltb_false (a b : Q) : Qltb a b = false ↔ (b <= a)%Q.
Proof.
  unfold Qltb. rewrite negb_false_iff. apply Qle_bool_iff.
Qed.

Lemma py_max0_nonneg (x : Q) : (0 <= py_max0 x)%Q.
Proof.
  unfold py_max0. destruct (Qltb 0 x) eqn:E; [|lra].
  apply Qltb_true in E. lra.
Qed.

Lemma py_max0_le (x y : Q) : (x <= y)%Q → (py_max0 x <= py_max0 y)%Q.
Proof.
  intros H. unfold py_max0.
  destruct (Qltb 0 x) eqn:Ex, (Qltb 0 y) eqn:Ey;
    rewrite ?Qltb_true, ?Qltb_false in *; lra.
Qed.

Lemma py_max0_le_1 (x : Q) : (x <= 1)%Q → (py_max0 x <= 1)%Q.
Proof.
  intros H. unfold py_max0. destruct (Qltb 0 x); lra.
Qed.

Lemma py_max0_nonpos (x : Q) : (x <= 0)%Q → py_max0 x = 0%Q.
Proof.
  intros H. unfold py_max0. destruct (Qltb 0 x) eqn:E; [|done].
  apply Qltb_true in E. lra.
Qed.

(** ** Frame to MIDI time *)

Lemma midi_time_of_frame_ok (frame fps tempo tpb : Z) :
  fps ≠ 0 → tempo ≠ 0 →
  midi_time_of_frame frame fps tempo tpb
  = Ok (inject_Z frame / inject_Z fps * 1000000 / inject_Z tempo * inject_Z tpb)%Q.
Proof.
  intros Hf Ht. unfold midi_time_of_frame.
  rewrite py_truediv_inject_Z by done. simpl.
  rewrite py_truediv_inject_Z by done. done.
Qed.


(** ** Active notes *)

Lemma ends_note_test (e x : MidiEvent) :
  (note x =? note e) && (EventType_eqb (type x) note_off || (velocity x =? 0)) = true
  ↔ ends_note e x.
Proof.
  unfold ends_note.
  rewrite andb_true_iff, orb_true_iff, !Z.eqb_eq.
  destruct (type x); simpl; intuition congruence.
Qed.

Lemma find_note_off_None (e : MidiEvent) (later : list MidiEvent) :
  find_note_off (note e) later = None
  ↔ ∀ k x, later !! k = Some x → ¬ ends_note e x.
Proof.
  induction later as [|y later IH]; simpl.
  - split; [intros _ k x Hk; by rewrite lookup_nil in Hk | done].
  - destruct (_ && _) eqn:E.
    + split; [done|]. intros H. exfalso.
      apply (H 0%nat y); [done|]. by apply ends_note_test.
    + rewrite IH. split.
      * intros H [|k] x Hk; simpl in Hk.
        -- injection Hk as <-. rewrite <- ends_note_test. congruence.
        -- by apply (H k).
      * intros H k x Hk. by apply (H (S k)).
Qed.

Lemma find_note_off_Some (e : MidiEvent) (later : list MidiEvent) (t : Z) :
  find_note_off (note e) later = Some t
  ↔ ∃ k x, later !! k = Some x ∧ ends_note e x ∧ time x = t
           ∧ ∀ k' y, (k' < k)%nat → later !! k' = Some y → ¬ ends_note e y.
Proof.
  induction later as [|y later IH]; simpl.
  - split; [done|]. intros (k & x & Hk & _). by rewrite lookup_nil in Hk.
  - destruct (_ && _) eqn:E.
    + apply ends_note_test in E. split.
      * intros [= <-]. exists 0%nat, y. split; [done|]. split; [done|].
        split; [done|]. intros k' z Hlt. lia.
      * intros (k & x & Hk & Hx & Ht & Hfirst). destruct k as [|k].
        -- simpl in Hk. injection Hk as <-. by rewrite Ht.
        -- exfalso. apply (Hfirst 0%nat y); [lia|done|done].
    + assert (¬ ends_note e y) as Hy by (rewrite <- ends_note_test; congruence).
      rewrite IH. split.
      * intros (k & x & Hk & Hx & Ht & Hfirst).
        exists (S k), x. split_and!; try done.
        intros [|k'] z Hlt Hz; simpl in Hz.
        -- by injection Hz as <-.
        -- apply (Hfirst k' z); [lia|done].
      * intros (k & x & Hk & Hx & Ht & Hfirst). destruct k as [|k].
        -- simpl in Hk. by injection Hk as <-.
        -- exists k, x. split_and!; try done.
           intros k' z Hlt Hz. apply (Hfirst (S k') z); [lia|done].
Qed.

Lemma elem_of_active_entries (track_data : list MidiEvent) (midi_time : Q)
    (i : nat) (e : MidiEvent) :
  (i, e) ∈ active_entries track_data midi_time
  ↔ track_data !! i = Some e ∧ is_active track_data midi_time i e = true.
Proof.
  unfold active_entries.
  rewrite list_elem_of_In, filter_In, <- list_elem_of_In, elem_of_lookup_imap.
  simpl. split.
  - intros [(j & x & [= -> ->] & Hj) Ha]. done.
  - intros [Hi Ha]. split; [|done]. by exists i, e.
Qed.

Lemma elem_of_active_notes (track_data : list MidiEvent) (midi_time : Q)
    (e : MidiEvent) :
  e ∈ active_notes track_data midi_time
  ↔ ∃ i, track_data !! i = Some e ∧ is_active track_data midi_time i e = true.
Proof.
  unfold active_notes. rewrite list_elem_of_fmap. split.
  - intros ([i x] & -> & Hin). apply elem_of_active_entries in Hin. by exists i.
  - intros (i & Hi & Ha). exists (i, e). split; [done|].
    by apply elem_of_active_entries.
Qed.

(** C6.  A NoteOn with velocity > 0 and time <= tickPosition, at index [i]
    of the track, is in the active set iff no later event of the track ends
    its note, or the first later event that does has a time beyond
    tickPosition.  So the note is active from its NoteOn up to, and not
    including, the time of that first ending event, and inactive from then
    on. *)
Theorem active_iff_not_yet_ended
    (track_data : list MidiEvent) (midi_time : Q) (i : nat) (e : MidiEvent) :
  track_data !! i = Some e →
  type e = note_on →
  0 < velocity e →
  (inject_Z (time e) <= midi_time)%Q →
  ((i, e) ∈ active_entries track_data midi_time
   ↔ (∀ j x, (i < j)%nat → track_data !! j = Some x → ¬ ends_note e x)
     ∨ (∃ j x, (i < j)%nat ∧ track_data !! j = Some x ∧ ends_note e x
               ∧ (∀ k y, (i < k < j)%nat → track_data !! k = Some y
                         → ¬ ends_note e y)
               ∧ (midi_time < inject_Z (time x))%Q))
  ∧ (∀ j x, (i < j)%nat → track_data !! j = Some x → ends_note e x →
       (∀ k y, (i < k < j)%nat → track_data !! k = Some y → ¬ ends_note e y) →
       ((midi_time < inject_Z (time x))%Q
          → e ∈ active_notes track_data midi_time)
       ∧ ((inject_Z (time x) <= midi_time)%Q
          → (i, e) ∉ active_entries track_data midi_time)).
Proof.
  intros Hi Hty Hvel Htime.
  assert (∀ P : Prop,
    (match note_off_time track_data i e with
     | None => true
     | Some t => Qltb midi_time (inject_Z t)
     end = true ↔ P)
    → ((i, e) ∈ active_entries track_data midi_time ↔ P)) as Hreduce.
  { intros P HP. rewrite elem_of_active_entries, <- HP. unfold is_active.
    apply Qleb_true in Htime. rewrite Htime, Hty.
    apply Z.ltb_lt in Hvel. rewrite Hvel. simpl. tauto. }
  assert (∀ j x, (i < j)%nat → track_data !! j = Some x → ends_note e x →
    (∀ k y, (i < k < j)%nat → track_data !! k = Some y → ¬ ends_note e y) →
    note_off_time track_data i e = Some (time x)) as Hfirst.
  { intros j x Hij Hj Hx Hbefore. unfold note_off_time.
    apply find_note_off_Some. exists (j - S i)%nat, x.
    rewrite lookup_drop. replace (S i + (j - S i))%nat with j by lia.
    split_and!; try done.
    intros k' y Hk' Hy. rewrite lookup_drop in Hy.
    apply (Hbefore (S i + k')%nat y); [lia|done]. }
  split.
  - apply Hreduce. unfold note_off_time.
    destruct (find_note_off (note e) (drop (S i) track_data)) as [t|] eqn:E.
    + apply find_note_off_Some in E as (k & x & Hk & Hx & <- & Hbefore).
      rewrite lookup_drop in Hk. rewrite Qltb_true. split.
      * intros Hlt. right. exists (S i + k)%nat, x.
        split_and!; try done; [lia|].
        intros k' y Hk' Hy. apply (Hbefore (k' - S i)%nat y); [lia|].
        rewrite lookup_drop. by replace (S i + (k' - S i))%nat with k' by lia.
      * intros [Hnone | (j & y & Hij & Hj & Hy & Hbefore' & Hlt)].
        -- exfalso. apply (Hnone (S i + k)%nat x); [lia|done|done].
        -- assert (j = (S i + k)%nat) as ->.
           { destruct (Nat.lt_trichotomy j (S i + k)) as [Hl|[?|Hl]]; [|done|].
             - exfalso. apply (Hbefore (j - S i)%nat y); [lia| |done].
               rewrite lookup_drop.
               by replace (S i + (j - S i))%nat with j by lia.
             - exfalso. apply (Hbefore' (S i + k)%nat x); [lia|done|done]. }
           by simplify_eq.
    + split; [|done]. intros _. left.
      intros j x Hij Hj Hx.
      pose proof (proj1 (find_note_off_None e _) E (j - S i)%nat x) as Hn.
      apply Hn; [|done]. rewrite lookup_drop.
      by replace (S i + (j - S i))%nat with j by lia.
  - intros j x Hij Hj Hx Hbefore.
    pose proof (Hfirst j x Hij Hj Hx Hbefore) as Hoff.
    assert ((i, e) ∈ active_entries track_data midi_time
            ↔ (midi_time < inject_Z (time x))%Q) as Hiff.
    { apply Hreduce. rewrite Hoff. apply Qltb_true. }
    split.
    + intros Hlt. apply elem_of_active_notes. exists i.
      by apply elem_of_active_entries, Hiff.
    + intros Hle Hin. apply Hiff in Hin. by apply Qlt_not_le in Hin.
Qed.

(** ** Trigger modes *)

Lemma max_by_time_elem (best : MidiEvent) (rest : list MidiEvent) :
  max_by_time best rest ∈ best :: rest.
Proof.
  revert best. induction rest as [|x rest IH]; intros best; simpl.
  - apply elem_of_cons. by left.
  - destruct (time best <? time x).
    + apply elem_of_cons. right. apply IH.
    + destruct (proj1 (elem_of_cons _ _ _) (IH best)) as [->|Hin].
      * apply elem_of_cons. by left.
      * apply elem_of_cons. right. apply elem_of_cons. by right.
Qed.

Lemma active_note_started (track_data : list MidiEvent) (midi_time : Q)
    (e : MidiEvent) :
  e ∈ active_notes track_data midi_time →
  e ∈ track_data ∧ 0 < velocity e ∧ (inject_Z (time e) <= midi_time)%Q.
Proof.
  rewrite elem_of_active_notes. intros (i & Hi & Ha).
  unfold is_active in Ha.
  apply andb_true_iff in Ha as [Ha _].
  apply andb_true_iff in Ha as [Ht Ha].
  apply andb_true_iff in Ha as [_ Hv].
  split; [by eapply list_elem_of_lookup_2|].
  split; [by apply Z.ltb_lt|by apply Qleb_true].
Qed.

Lemma most_recent_active_started (track_data : list MidiEvent) (midi_time : Q)
    (e : MidiEvent) :
  most_recent_active track_data midi_time = Some e →
  e ∈ track_data ∧ 0 < velocity e ∧ (inject_Z (time e) <= midi_time)%Q.
Proof.
  unfold most_recent_active. intros H.
  destruct (active_notes track_data midi_time) as [|first others] eqn:E; [done|].
  injection H as <-. apply active_note_started. rewrite E.
  apply max_by_time_elem.
Qed.

Lemma pulse_strength (track_data : list MidiEvent) (midi_time : Q)
    (tpb : Z) (decay_rate : Q) (e : MidiEvent) :
  tpb ≠ 0 →
  most_recent_active track_data midi_time = Some e →
  strength_at_midi_time track_data midi_time "Pulse" tpb decay_rate
  = Ok (velocity_ratio e
        * py_max0 (1 - (midi_time - inject_Z (time e)) / inject_Z tpb * decay_rate))%Q.
Proof.
  intros Htpb. unfold most_recent_active, strength_at_midi_time.
  destruct (active_notes track_data midi_time) as [|first others]; [done|].
  intros [= <-]. simpl. by rewrite py_truediv_inject_Z.
Qed.

Lemma py_max0_Qmax (x : Q) : (py_max0 x == Qmax 0 x)%Q.
Proof.
  unfold py_max0. destruct (Qltb 0 x) eqn:E.
  - apply Qltb_true in E. rewrite Q.max_r; [reflexivity|lra].
  - apply Qltb_false in E. rewrite Q.max_l; [reflexivity|lra].
Qed.

Lemma velocity_ratio_nonneg (e : MidiEvent) :
  0 ≤ velocity e → (0 <= velocity_ratio e)%Q.
Proof.
  intros H. unfold velocity_ratio. apply inject_Z_nonneg in H.
  apply Qle_shift_div_l; lra.
Qed.

Lemma velocity_ratio_le_1 (e : MidiEvent) :
  velocity e ≤ 127 → (velocity_ratio e <= 1)%Q.
Proof.
  intros H. unfold velocity_ratio. apply inject_Z_le in H.
  apply Qle_shift_div_r; [lra|]. change (inject_Z 127) with 127%Q in H. lra.
Qed.

Lemma elapsed_beats_le (t1 t2 : Q) (start tpb : Z) :
  0 < tpb → (t1 <= t2)%Q →
  ((t1 - inject_Z start) / inject_Z tpb <= (t2 - inject_Z start) / inject_Z tpb)%Q.
Proof.
  intros Htpb Hle. apply inject_Z_pos in Htpb.
  apply Qmult_le_compat_r; [lra|].
  apply Qlt_le_weak, Qinv_lt_0_compat. done.
Qed.

(** C7.  With ticksPerBeat > 0, decayRate >= 0 and the same most recent
    active NoteOn at two tick positions t1 <= t2, the Pulse strength at
    each is (velocity/127) * max(0, 1 - ((t - time)/ticksPerBeat) *
    decayRate), the one at t2 is not above the one at t1, and it is 0 once
    the elapsed beats times decayRate reach 1. *)
Theorem pulse_non_increasing_then_zero
    (track_data : list MidiEvent) (t1 t2 : Q) (tpb : Z) (decay_rate : Q)
    (e : MidiEvent) :
  0 < tpb →
  (0 <= decay_rate)%Q →
  (t1 <= t2)%Q →
  most_recent_active track_data t1 = Some e →
  most_recent_active track_data t2 = Some e →
  ∃ s1 s2,
    strength_at_midi_time track_data t1 "Pulse" tpb decay_rate = Ok s1
    ∧ strength_at_midi_time track_data t2 "Pulse" tpb decay_rate = Ok s2
    ∧ (s1 == inject_Z (velocity e) / 127
             * Qmax 0 (1 - (t1 - inject_Z (time e)) / inject_Z tpb * decay_rate))%Q
    ∧ (s2 == inject_Z (velocity e) / 127
             * Qmax 0 (1 - (t2 - inject_Z (time e)) / inject_Z tpb * decay_rate))%Q
    ∧ (s2 <= s1)%Q
    ∧ ((1 <= (t2 - inject_Z (time e)) / inject_Z tpb * decay_rate)%Q
       → (s2 == 0)%Q).
Proof.
  intros Htpb Hdecay Hle H1 H2.
  pose proof (most_recent_active_started _ _ _ H1) as (_ & Hvel & _).
  assert (0 <= velocity_ratio e)%Q as Hratio
    by (apply velocity_ratio_nonneg; lia).
  pose proof (elapsed_beats_le t1 t2 (time e) tpb Htpb Hle) as Hbeats.
  do 2 eexists.
  split; [apply pulse_strength; [lia|done]|].
  split; [apply pulse_strength; [lia|done]|].
  split; [by rewrite py_max0_Qmax|].
  split; [by rewrite py_max0_Qmax|].
  split.
  - rewrite !(Qmult_comm (velocity_ratio e)).
    apply Qmult_le_compat_r; [|done].
    apply py_max0_le.
    assert ((t1 - inject_Z (time e)) / inject_Z tpb * decay_rate
            <= (t2 - inject_Z (time e)) / inject_Z tpb * decay_rate)%Q
      by (apply Qmult_le_compat_r; done).
    lra.
  - intros Hone. rewrite py_max0_nonpos by lra. ring.
Qed.

(** C1.  On the track [NoteOn(0, 60, 100); NoteOff(960, 60, 0)] at frame 60
    and 30 fps (tick 1920), one NoteOn has time <= tickPosition, an odd
    count, and no note is active: Toggle returns 0.0, not 1.0. *)
Theorem toggle_zero_without_active_note :
  ∃ tick,
    midi_time_of_frame 60 30 500000 480 = Ok tick
    ∧ (tick == 1920)%Q
    ∧ note_on_count scenario_track tick = 1%nat
    ∧ active_notes scenario_track tick = []
    ∧ get_track_strength_at_frame scenario_track 60 30 "Toggle" 480 500000 2
      = Ok 0%Q.
Proof.
  eexists. split; [vm_compute; reflexivity|].
  split_and!; by vm_compute.
Qed.

(** Two NoteOns and no NoteOff: the first is odd, the second even. *)
Example toggle_two_note_ons :
  strength_at_midi_time
    [mkEvent 0 note_on 60 100; mkEvent 960 note_on 60 100] 500 "Toggle" 480 2
  = Ok 1%Q
  ∧ strength_at_midi_time
      [mkEvent 0 note_on 60 100; mkEvent 960 note_on 60 100] 1000 "Toggle" 480 2
    = Ok 0%Q.
Proof. by vm_compute. Qed.

(** A mode the code does not know gives 0.0. *)
Example unknown_mode_is_zero :
  strength_at_midi_time scenario_track 480 "Gate" 480 2 = Ok 0%Q.
Proof. by vm_compute. Qed.

(** Parsing "one.mid" and asking for the active notes between the NoteOn
    and its NoteOff, and at the NoteOff. *)
Example parsed_note_active_between :
  (λ d, (λ track_data, active_notes track_data 480) <$> tracks d)
    <$> parse_midi_file demo_world "one.mid"
  = Some [[mkEvent 0 note_on 60 100]]
  ∧ (λ d, (λ track_data, active_notes track_data 960) <$> tracks d)
      <$> parse_midi_file demo_world "one.mid"
    = Some [[]].
Proof. by vm_compute. Qed.

(** What the Toggle branch returns in general: 1.0 needs both an odd count
    and an active note. *)
Lemma toggle_strength (track_data : list MidiEvent) (midi_time : Q)
    (tpb : Z) (decay_rate : Q) :
  strength_at_midi_time track_data midi_time "Toggle" tpb decay_rate
  = Ok (match active_notes track_data midi_time with
        | [] => 0%Q
        | _ :: _ => if Nat.odd (note_on_count track_data midi_time)
                    then 1%Q else 0%Q
        end).
Proof.
  unfold strength_at_midi_time.
  by destruct (active_notes track_data midi_time).
Qed.

Lemma Qsum_unit_bounds (l : list Q) :
  Forall (fun q => 0 <= q <= 1)%Q l →
  (0 <= Qsum l <= inject_Z (Z.of_nat (length l)))%Q.
Proof.
  induction 1 as [|q l Hq _ IH].
  - simpl. unfold Qle; simpl; lia.
  - change (0 <= q + Qsum l <= inject_Z (Z.of_nat (S (length l))))%Q.
    rewrite Nat2Z.inj_succ, <- Z.add_1_r, inject_Z_plus.
    change (inject_Z 1) with 1%Q. lra.
Qed.

Lemma np_mean_unit_bounds (l : list Q) :
  l ≠ [] →
  Forall (fun q => 0 <= q <= 1)%Q l →
  (0 <= np_mean l <= 1)%Q.
Proof.
  intros Hne Hall. pose proof (Qsum_unit_bounds l Hall) as [Hlo Hhi].
  assert (0 < inject_Z (Z.of_nat (length l)))%Q as Hlen.
  { apply inject_Z_pos. destruct l; [done|simpl; lia]. }
  unfold np_mean. split.
  - apply Qle_shift_div_l; [done|lra].
  - apply Qle_shift_div_r; [done|lra].
Qed.

(** Every mode returns a strength, and one between 0 and 1. *)
Lemma strength_at_midi_time_range (track_data : list MidiEvent) (midi_time : Q)
    (mode : string) (tpb : Z) (decay_rate : Q) :
  velocities_in_range track_data →
  0 < tpb →
  (0 <= decay_rate)%Q →
  ∃ s, strength_at_midi_time track_data midi_time mode tpb decay_rate = Ok s
       ∧ (0 <= s <= 1)%Q.
Proof.
  intros Hvel Htpb Hdecay. unfold strength_at_midi_time.
  destruct (active_notes track_data midi_time) as [|first others] eqn:E.
  { eexists; split; [done|lra]. }
  assert (∀ e, e ∈ first :: others →
            0 ≤ velocity e ≤ 127 ∧ (inject_Z (time e) <= midi_time)%Q) as Hact.
  { intros e He. rewrite <- E in He.
    apply active_note_started in He as (Hin & _ & Ht). split; [auto|done]. }
  destruct (String.eqb mode "Velocity").
  { eexists; split; [done|]. apply np_mean_unit_bounds; [done|].
    apply Forall_fmap, Forall_forall. intros e He.
    destruct (Hact e He) as [[Hlo Hhi] _]. simpl.
    split; [by apply velocity_ratio_nonneg|by apply velocity_ratio_le_1]. }
  destruct (String.eqb mode "Pulse").
  { pose proof (max_by_time_elem first others) as Hin.
    destruct (Hact _ Hin) as [[Hlo Hhi] Ht].
    rewrite py_truediv_inject_Z by lia. simpl.
    eexists; split; [done|].
    pose proof (velocity_ratio_nonneg _ Hlo) as Hr0.
    pose proof (velocity_ratio_le_1 _ Hhi) as Hr1.
    set (elapsed := ((midi_time - inject_Z (time (max_by_time first others)))
                     / inject_Z tpb)%Q).
    assert (0 <= elapsed)%Q as Hel.
    { apply Qle_shift_div_l; [by apply inject_Z_pos|lra]. }
    assert (0 <= elapsed * decay_rate)%Q as Hprod by (by apply Qmult_le_0_compat).
    pose proof (py_max0_nonneg (1 - elapsed * decay_rate)) as Hd0.
    pose proof (py_max0_le_1 (1 - elapsed * decay_rate)) as Hd1.
    split; [by apply Qmult_le_0_compat|]. nra. }
  destruct (String.eqb mode "Hold").
  { eexists; split; [done|lra]. }
  destruct (String.eqb mode "Toggle").
  { eexists; split; [done|]. destruct (Nat.odd _); lra. }
  eexists; split; [done|lra].
Qed.

Lemma get_track_strength_at_frame_range (track_data : list MidiEvent)
    (frame fps : Z) (mode : string) (tpb tempo : Z) (decay_rate : Q) :
  velocities_in_range track_data →
  fps ≠ 0 → tempo ≠ 0 → 0 < tpb → (0 <= decay_rate)%Q →
  ∃ s, get_track_strength_at_frame track_data frame fps mode tpb tempo decay_rate
       = Ok s ∧ (0 <= s <= 1)%Q.
Proof.
  intros Hvel Hfps Htempo Htpb Hdecay. unfold get_track_strength_at_frame.
  destruct track_data as [|e0 rest] eqn:E.
  { eexists; split; [done|lra]. }
  rewrite midi_time_of_frame_ok by done. simpl.
  by apply strength_at_midi_time_range.
Qed.

(** ** The session *)

Lemma same_cache_refl (s : Session) : same_cache s s.
Proof. by unfold same_cache. Qed.

Lemma same_cache_trans (s1 s2 s3 : Session) :
  same_cache s1 s2 → same_cache s2 s3 → same_cache s1 s3.
Proof. unfold same_cache. intros (?&?&?) (?&?&?). split_and!; congruence. Qed.

Lemma set_track_state_spec (i : nat) (x : Q) (s s' : Session) :
  set_track_state i x s = Ok s' →
  same_cache s s'
  ∧ current_frame s' = current_frame s
  ∧ track_states s' = <[i := x]> (track_states s)
  ∧ (i < length (track_states s))%nat.
Proof.
  unfold set_track_state. case_decide; [|done].
  intros [= <-]. by unfold same_cache.
Qed.

Section MixerProperties.
Context {HostStore Locals : Type}.
Implicit Types (c : Call HostStore Locals) (st : Session * HostStore).
Implicit Types (d : ParsedMidi) (w : World) (locals : Locals).

Lemma track_step_frame d c i locals st :
  let st' := (track_step d c i locals st).1 in
  same_cache st.1 st'.1
  ∧ length (track_states st'.1) = length (track_states st.1)
  ∧ (∀ j, j ≠ i → track_states st'.1 !! j = track_states st.1 !! j)
  ∧ (tracks d !! i = None → track_states st'.1 = track_states st.1).
Proof.
  unfold track_step. destruct (tracks d !! i) as [track_data|] eqn:Ei.
  2:{ simpl. split_and!; try done; try apply same_cache_refl. }
  destruct (get_track_strength_at_frame _ _ _ _ _ _ _) as [strength|e].
  2:{ simpl. split_and!; try done; try apply same_cache_refl. }
  destruct (set_track_state _ _ _) as [s'|e] eqn:Es.
  2:{ simpl. split_and!; try done; try apply same_cache_refl. }
  apply set_track_state_spec in Es as (Hc & _ & Hts & Hlen).
  destruct (connect c i _ locals st.2) as [h' r]. simpl.
  split_and!; try done.
  - rewrite Hts. apply length_insert.
  - intros j Hj. rewrite Hts. by apply list_lookup_insert_ne.
Qed.

Lemma track_step_written d c i locals st st' locals' :
  track_step d c i locals st = (st', Ok locals') →
  well_formed_midi d → fps c ≠ 0 → (0 <= decay_rate c)%Q →
  (0 <= mix_strength c)%Q →
  is_Some (tracks d !! i) →
  ∃ x, track_states st'.1 !! i = Some x ∧ (0 <= x <= mix_strength c)%Q.
Proof.
  intros Hstep (Htempo & Htpb & Hvel) Hfps Hdecay Hmix [track_data Ei].
  unfold track_step in Hstep. rewrite Ei in Hstep.
  destruct (get_track_strength_at_frame_range track_data (frame_number c)
              (fps c) (trigger_mode c) (ticks_per_beat d) (tempo d)
              (decay_rate c)) as (s & Hs & Hs0 & Hs1); try done.
  { apply Hvel. by eapply list_elem_of_lookup_2. }
  rewrite Hs in Hstep.
  destruct (set_track_state _ _ _) as [s'|e] eqn:Es; [|done].
  apply set_track_state_spec in Es as (_ & _ & Hts & Hlen).
  destruct (connect c i _ locals st.2) as [h' r].
  injection Hstep as <- ->. simpl. rewrite Hts.
  exists (s * mix_strength c)%Q. split; [by apply list_lookup_insert_eq|].
  split; nra.
Qed.

Lemma track_loop_frame d c slots locals st :
  let st' := (track_loop d c slots locals st).1 in
  same_cache st.1 st'.1
  ∧ length (track_states st'.1) = length (track_states st.1)
  ∧ (∀ j, (j ∉ slots ∨ tracks d !! j = None) →
          track_states st'.1 !! j = track_states st.1 !! j).
Proof.
  revert locals st. induction slots as [|i rest IH]; intros locals st.
  - simpl. split_and!; try done; try apply same_cache_refl.
  - simpl. unfold mbind'.
    pose proof (track_step_frame d c i locals st) as (Hc & Hlen & Hne & Hnone).
    destruct (track_step d c i locals st) as [st1 [locals1|e]] eqn:E; simpl in *.
    + destruct (IH locals1 st1) as (Hc' & Hlen' & Hrest).
      split_and!.
      * by eapply same_cache_trans.
      * congruence.
      * intros j Hj. rewrite Hrest.
        -- destruct (decide (j = i)) as [->|Hji]; [|by apply Hne].
           destruct Hj as [Hj|Hj]; [|by rewrite Hnone].
           exfalso. apply Hj. by left.
        -- destruct Hj as [Hj|Hj]; [left|by right].
           intros Hin. apply Hj. by right.
    + split_and!; try done. intros j Hj.
      destruct (decide (j = i)) as [->|Hji]; [|by apply Hne].
      destruct Hj as [Hj|Hj]; [|by rewrite Hnone].
      exfalso. apply Hj. by left.
Qed.

Lemma track_loop_written d c slots locals st st' locals' :
  track_loop d c slots locals st = (st', Ok locals') →
  well_formed_midi d → fps c ≠ 0 → (0 <= decay_rate c)%Q →
  (0 <= mix_strength c)%Q →
  ∀ i, i ∈ slots → is_Some (tracks d !! i) →
       ∃ x, track_states st'.1 !! i = Some x ∧ (0 <= x <= mix_strength c)%Q.
Proof.
  intros Hloop Hwf Hfps Hdecay Hmix.
  revert locals st Hloop. induction slots as [|i0 rest IH];
    intros locals st Hloop i Hin Htrack.
  { by apply elem_of_nil in Hin. }
  simpl in Hloop. unfold mbind' in Hloop.
  destruct (track_step d c i0 locals st) as [st1 [locals1|e]] eqn:E; [|done].
  destruct (decide (i ∈ rest)) as [Hrest|Hrest].
  { by eapply IH. }
  apply elem_of_cons in Hin as [->|?]; [|done].
  pose proof (track_loop_frame d c rest locals1 st1) as (_ & _ & Hkeep).
  rewrite Hloop in Hkeep. simpl in Hkeep. rewrite Hkeep by by left.
  by eapply (track_step_written d c i0 locals st st1 locals1).
Qed.
End MixerProperties.

Lemma load_midi_track_states (w : World) (p : string) (f : Z) (s : Session) :
  track_states (load_midi w p f s) = track_states s.
Proof. unfold load_midi. by destruct (_ && _). Qed.

Lemma load_midi_current_frame (w : World) (p : string) (f : Z) (s : Session) :
  current_frame (load_midi w p f s) = f.
Proof. unfold load_midi. by destruct (_ && _). Qed.

Lemma load_midi_empty (w : World) (f : Z) (s : Session) :
  load_midi w "" f s
  = mkSession (midi_data s) f (track_states s) (_cached_midi_path s) (parse_log s).
Proof. done. Qed.

Lemma load_midi_cached (w : World) (p : string) (f : Z) (s : Session) :
  _cached_midi_path s = Some p →
  load_midi w p f s
  = mkSession (midi_data s) f (track_states s) (_cached_midi_path s) (parse_log s).
Proof.
  intros Hc. unfold load_midi. rewrite Hc. simpl.
  rewrite String.eqb_refl. simpl. by rewrite andb_false_r.
Qed.

Lemma load_midi_new (w : World) (p : string) (f : Z) (s : Session) :
  p ≠ "" → _cached_midi_path s ≠ Some p →
  load_midi w p f s
  = mkSession (parse_midi_file w p) f (track_states s) (Some p)
              (parse_log s ++ [p]).
Proof.
  intros Hp Hc. unfold load_midi.
  apply String.eqb_neq in Hp. rewrite Hp. simpl.
  destruct (_cached_midi_path s) as [q|]; simpl; [|done].
  assert (q ≠ p) as Hq by congruence.
  apply String.eqb_neq in Hq. by rewrite Hq.
Qed.

Section SessionProperties.
Context {HostStore Locals : Type}.
Implicit Types (c : Call HostStore Locals) (st : Session * HostStore).
Implicit Types (d : ParsedMidi) (w : World) (locals : Locals).

(** After its first statements a call leaves the cache alone. *)
Lemma mix_with_midi_frame w c locals st :
  let s1 := load_midi w (requested_path c) (frame_number c) st.1 in
  let s' := session_after w c locals st in
  same_cache s1 s'
  ∧ length (track_states s') = length (track_states st.1)
  ∧ (∀ j, (∀ d, midi_data s1 = Some d → (4 ≤ j)%nat ∨ tracks d !! j = None) →
          track_states s' !! j = track_states st.1 !! j).
Proof.
  unfold session_after, mix_with_midi, requested_path.
  assert (∀ j, (4 ≤ j)%nat → j ∉ seq 0 4) as Hout
    by (intros j Hj; rewrite elem_of_seq; lia).
  remember (seq 0 4) as slots eqn:Hslots. clear Hslots.
  set (s1 := load_midi w (default "" (midi_path c)) (frame_number c) st.1).
  simpl. destruct (midi_data s1) as [d|] eqn:Ed.
  - pose proof (track_loop_frame d c slots locals (s1, st.2))
      as (Hc & Hlen & Hkeep).
    destruct (track_loop d c slots locals (s1, st.2)) as [st' [l'|e]];
      simpl in *.
    all: split_and!; try done.
    all: try (rewrite Hlen; unfold s1; by rewrite load_midi_track_states).
    all: intros j Hj; rewrite Hkeep;
      [unfold s1; by rewrite load_midi_track_states|].
    all: destruct (Hj d eq_refl) as [H4|Hnone]; [left; by apply Hout|by right].
  - unfold mret'. simpl. split_and!; try apply same_cache_refl.
    + unfold s1. by rewrite load_midi_track_states.
    + intros j _. unfold s1. by rewrite load_midi_track_states.
Qed.

(** Without parsed MIDI the loop over the slots is skipped. *)
Lemma mix_with_midi_no_data w c locals st :
  midi_data (load_midi w (requested_path c) (frame_number c) st.1) = None →
  mix_with_midi w c locals st
  = ((load_midi w (requested_path c) (frame_number c) st.1, st.2),
     Ok (mkOutput locals 120%Q (track_states st.1))).
Proof.
  intros Hnone. unfold mix_with_midi, requested_path in *.
  unfold reported_bpm. rewrite Hnone. unfold mret'. simpl.
  by rewrite load_midi_track_states.
Qed.
End SessionProperties.

(** ** Concrete sessions *)

Example hold_scenario_frame_15 :
  get_track_strength_at_frame scenario_track 15 30 "Hold" 480 500000 2 = Ok 1%Q.
Proof. by vm_compute. Qed.

Example hold_scenario_frame_60 :
  get_track_strength_at_frame scenario_track 60 30 "Hold" 480 500000 2 = Ok 0%Q.
Proof. by vm_compute. Qed.

Example two_tracks_parsed :
  option_map tracks (parse_midi_file demo_world "two.mid")
  = Some [[mkEvent 0 note_on 60 100; mkEvent 960 note_off 60 0];
          [mkEvent 0 note_on 62 90; mkEvent 960 note_off 62 0]].
Proof. by vm_compute. Qed.

Example two_tracks_held :
  track_states state_after_two_tracks.1 = [1%Q; 1%Q; 0%Q; 0%Q]
  ∧ _cached_midi_path state_after_two_tracks.1 = Some "two.mid".
Proof. by vm_compute. Qed.

(** ** Claims about the session *)

(** C2, as stated, fails: after "two.mid" was parsed, a call without a path
    returns the strengths of its two held tracks and reports 100 BPM. *)
Lemma empty_path_after_parse_still_mixes :
  ∃ o, outcome demo_world (node_call 15 30 "Hold" 1 2 None no_inputs)
               demo_locals state_after_two_tracks = Ok o
       ∧ out_mix_values o = [1%Q; 1%Q; 0%Q; 0%Q]
       ∧ (out_bpm o == 100)%Q
       ∧ ¬ (Forall (fun x => x == 0)%Q (out_mix_values o)
            ∧ (out_bpm o == 120)%Q).
Proof.
  eexists. split; [by vm_compute|]. simpl.
  split; [done|]. split; [by vm_compute|].
  intros [_ Hbpm]. vm_compute in Hbpm. done.
Qed.

(** C2, amended.  A call with an empty or absent path parses nothing and
    leaves the cached parsed MIDI and the cached path as they were.  When
    the session holds no parsed MIDI, the call reports 120 BPM and returns
    the stored strengths as they were: all 0 when they were all 0, as in a
    new session. *)
Theorem empty_path_keeps_cache {HostStore Locals : Type}
    (w : World) (c : Call HostStore Locals) (locals : Locals)
    (st : Session * HostStore) :
  requested_path c = "" →
  same_cache st.1 (session_after w c locals st)
  ∧ (midi_data st.1 = None →
     outcome w c locals st = Ok (mkOutput locals 120%Q (track_states st.1))
     ∧ track_states (session_after w c locals st) = track_states st.1
     ∧ (Forall (fun x => x == 0)%Q (track_states st.1) →
        Forall (fun x => x == 0)%Q (track_states (session_after w c locals st)))).
Proof.
  intros Hpath.
  pose proof (mix_with_midi_frame w c locals st) as (Hc & _ & _).
  cbv zeta in Hc. rewrite Hpath, load_midi_empty in Hc.
  split; [exact Hc|].
  intros Hnone. unfold outcome, session_after.
  rewrite mix_with_midi_no_data.
  - simpl. rewrite load_midi_track_states. done.
  - by rewrite Hpath, load_midi_empty.
Qed.

Lemma empty_path_keeps_cache_witness :
  same_cache fresh_state.1
    (session_after demo_world (node_call 0 30 "Hold" 1 2 (Some "") no_inputs)
                   demo_locals fresh_state)
  ∧ (midi_data fresh_state.1 = None →
     outcome demo_world (node_call 0 30 "Hold" 1 2 (Some "") no_inputs)
             demo_locals fresh_state
     = Ok (mkOutput demo_locals 120%Q (track_states fresh_state.1))
     ∧ track_states
         (session_after demo_world
            (node_call 0 30 "Hold" 1 2 (Some "") no_inputs)
            demo_locals fresh_state)
       = track_states fresh_state.1
     ∧ (Forall (fun x => x == 0)%Q (track_states fresh_state.1) →
        Forall (fun x => x == 0)%Q
          (track_states
             (session_after demo_world
                (node_call 0 30 "Hold" 1 2 (Some "") no_inputs)
                demo_locals fresh_state)))).
Proof.
  apply (empty_path_keeps_cache demo_world
           (node_call 0 30 "Hold" 1 2 (Some "") no_inputs)
           demo_locals fresh_state).
  reflexivity.
Defined.

(** C3, as stated, fails: "two.mid" left slot 1 at 1.0; the next call
    parses "one.mid", which has one track, and slot 1 still holds 1.0. *)
Lemma slot_without_track_keeps_old_strength :
  let s' := session_after demo_world
              (node_call 15 30 "Hold" 1 2 (Some "one.mid") no_inputs)
              demo_locals state_after_two_tracks in
  (length <$> (tracks <$> midi_data s')) = Some 1%nat
  ∧ ∃ x, track_states s' !! 1%nat = Some x ∧ ¬ (x == 0)%Q.
Proof. split; [by vm_compute|]. exists 1%Q. by vm_compute. Qed.

(** C3, amended.  After every update call, each track-strength slot with no
    corresponding parsed track holds the value it held before the call; it
    is 0 if it was 0 before. *)
Theorem slot_without_track_unchanged {HostStore Locals : Type}
    (w : World) (c : Call HostStore Locals) (locals : Locals)
    (st : Session * HostStore) (d : ParsedMidi) (j : nat) :
  midi_data (session_after w c locals st) = Some d →
  (length (tracks d) ≤ j)%nat →
  track_states (session_after w c locals st) !! j = track_states st.1 !! j
  ∧ (∀ x, track_states st.1 !! j = Some x → (x == 0)%Q →
          ∃ y, track_states (session_after w c locals st) !! j = Some y
               ∧ (y == 0)%Q).
Proof.
  intros Hd Hj.
  pose proof (mix_with_midi_frame w c locals st) as ((Hdata & _) & _ & Hkeep).
  cbv zeta in Hdata, Hkeep.
  assert (track_states (session_after w c locals st) !! j
          = track_states st.1 !! j) as Heq.
  { apply Hkeep. intros d' Hd'. right.
    rewrite Hdata in Hd. assert (d' = d) as -> by congruence.
    by apply lookup_ge_None. }
  split; [done|]. intros x Hx Hzero. exists x. by rewrite Heq.
Qed.

Lemma slot_without_track_unchanged_witness :
  track_states
    (session_after demo_world
       (node_call 15 30 "Hold" 1 2 (Some "one.mid") no_inputs)
       demo_locals state_after_two_tracks) !! 1%nat
  = track_states state_after_two_tracks.1 !! 1%nat
  ∧ (∀ x, track_states state_after_two_tracks.1 !! 1%nat = Some x →
          (x == 0)%Q →
          ∃ y, track_states
                 (session_after demo_world
                    (node_call 15 30 "Hold" 1 2 (Some "one.mid") no_inputs)
                    demo_locals state_after_two_tracks) !! 1%nat = Some y
               ∧ (y == 0)%Q).
Proof.
  eapply (slot_without_track_unchanged demo_world
            (node_call 15 30 "Hold" 1 2 (Some "one.mid") no_inputs)
            demo_locals state_after_two_tracks).
  - vm_compute. reflexivity.
  - simpl. lia.
Defined.

(** C4, as stated, fails: in Hold mode with mixStrength 2.0, inside the
    declared range, slot 0 holds 2.0. *)
Lemma hold_at_mix_strength_two_exceeds_one :
  ∃ x, track_states
         (session_after demo_world
            (node_call 15 30 "Hold" 2 2 (Some "one.mid") no_inputs)
            demo_locals fresh_state) !! 0%nat = Some x
       ∧ (x == 2)%Q ∧ ¬ (0 <= x <= 1)%Q.
Proof.
  exists 2%Q. split; [by vm_compute|]. split; [done|].
  intros [_ H]. by vm_compute in H.
Qed.

(** C4, amended.  After an update call that returns, on parsed data with a
    tempo other than 0, ticksPerBeat > 0 and velocities in 0..127, with
    fps >= 1, decayRate >= 0 and mixStrength >= 0, each of the four slots
    that has a parsed track holds a value in [0, mixStrength]: in [0,1] when
    mixStrength <= 1. *)
Theorem written_slots_within_mix_strength {HostStore Locals : Type}
    (w : World) (c : Call HostStore Locals) (locals : Locals)
    (st : Session * HostStore) (d : ParsedMidi) (o : Output Locals) (i : nat) :
  midi_data (session_after w c locals st) = Some d →
  well_formed_midi d →
  1 ≤ fps c →
  (0 <= decay_rate c)%Q →
  (0 <= mix_strength c)%Q →
  outcome w c locals st = Ok o →
  (i < 4)%nat →
  (i < length (tracks d))%nat →
  ∃ x, track_states (session_after w c locals st) !! i = Some x
       ∧ out_mix_values o !! i = Some x
       ∧ (0 <= x <= mix_strength c)%Q
       ∧ ((mix_strength c <= 1)%Q → (0 <= x <= 1)%Q).
Proof.
  intros Hd Hwf Hfps Hdecay Hmix Hout Hi4 Hi.
  pose proof (mix_with_midi_frame w c locals st) as ((Hdata & _) & _).
  cbv zeta in Hdata. rewrite Hdata in Hd.
  unfold outcome, session_after in *. unfold mix_with_midi in *.
  fold (requested_path c) in *.
  set (s1 := load_midi w (requested_path c) (frame_number c) st.1) in *.
  assert (i ∈ seq 0 4) as Hin by (rewrite elem_of_seq; lia).
  remember (seq 0 4) as slots eqn:Hslots. clear Hslots.
  cbv zeta in Hout |- *. rewrite Hd in Hout |- *.
  destruct (track_loop d c slots locals (s1, st.2)) as [st' [l'|e]] eqn:Eloop;
    [|done].
  simpl in Hout |- *. injection Hout as <-. simpl.
  destruct (track_loop_written d c slots locals (s1, st.2) st' l' Eloop Hwf)
    with (i := i) as (x & Hx & Hlo & Hhi); try done; [lia|by apply lookup_lt_is_Some|].
  exists x. split_and!; try done. intros Hle. split; lra.
Qed.

Lemma written_slots_within_mix_strength_witness :
  ∃ x, track_states
         (session_after demo_world
            (node_call 15 30 "Pulse" 2 (1 # 2) (Some "one.mid") no_inputs)
            demo_locals fresh_state) !! 0%nat = Some x
       ∧ (0 <= x <= 2)%Q.
Proof.
  destruct (written_slots_within_mix_strength demo_world
              (node_call 15 30 "Pulse" 2 (1 # 2) (Some "one.mid") no_inputs)
              demo_locals fresh_state one_track_parsed
              (mkOutput demo_locals (60000000 # 500000)
                        [1440000000000 # 1828800000000; 0; 0; 0]%Q) 0%nat)
    as (x & Hx & _ & Hrange & _).
  - vm_compute. reflexivity.
  - split; [done|]. split; [done|]. intros track_data Hin e He.
    apply list_elem_of_In in Hin. simpl in Hin.
    destruct Hin as [<-|[]]. apply list_elem_of_In in He. simpl in He.
    destruct He as [<-|[<-|[]]]; simpl; lia.
  - simpl. lia.
  - simpl. lra.
  - simpl. lra.
  - vm_compute. reflexivity.
  - lia.
  - simpl. lia.
  - exists x. split; [exact Hx|exact Hrange].
Defined.

(** What a call does to the cache, by the path it asks for. *)
Lemma session_after_cached {HostStore Locals : Type}
    (w : World) (c : Call HostStore Locals) (locals : Locals)
    (st : Session * HostStore) :
  _cached_midi_path st.1 = Some (requested_path c) →
  same_cache st.1 (session_after w c locals st).
Proof.
  intros Hc. pose proof (mix_with_midi_frame w c locals st) as (H & _ & _).
  cbv zeta in H. by rewrite load_midi_cached in H.
Qed.

Lemma session_after_new_path {HostStore Locals : Type}
    (w : World) (c : Call HostStore Locals) (locals : Locals)
    (st : Session * HostStore) :
  requested_path c ≠ "" →
  _cached_midi_path st.1 ≠ Some (requested_path c) →
  midi_data (session_after w c locals st) = parse_midi_file w (requested_path c)
  ∧ _cached_midi_path (session_after w c locals st) = Some (requested_path c)
  ∧ parse_log (session_after w c locals st)
    = parse_log st.1 ++ [requested_path c].
Proof.
  intros Hp Hc.
  pose proof (mix_with_midi_frame w c locals st) as ((H1 & H2 & H3) & _ & _).
  cbv zeta in H1, H2, H3. by rewrite load_midi_new in H1, H2, H3.
Qed.

Lemma session_after_path_cached {HostStore Locals : Type}
    (w : World) (c : Call HostStore Locals) (locals : Locals)
    (st : Session * HostStore) :
  requested_path c ≠ "" →
  _cached_midi_path (session_after w c locals st) = Some (requested_path c).
Proof.
  intros Hp.
  destruct (decide (_cached_midi_path st.1 = Some (requested_path c))) as [Hc|Hc].
  - destruct (session_after_cached w c locals st Hc) as (_ & -> & _). done.
  - by apply session_after_new_path.
Qed.

(** C5.  Two calls in succession with the same non-empty path: the first
    parses once if the path is not the cached one (and not at all if it
    is), the second parses nothing and leaves the cached parsed MIDI and the
    cached path as they are; a call after them with a different non-empty
    path parses exactly once, that path. *)
Theorem same_path_parsed_once {HostStore Locals : Type}
    (w1 w2 w3 : World) (c1 c2 c3 : Call HostStore Locals)
    (l1 l2 l3 : Locals) (st : Session * HostStore) (p q : string) :
  requested_path c1 = p → requested_path c2 = p → p ≠ "" →
  requested_path c3 = q → q ≠ "" → q ≠ p →
  let st1 := (mix_with_midi w1 c1 l1 st).1 in
  let st2 := (mix_with_midi w2 c2 l2 st1).1 in
  let st3 := (mix_with_midi w3 c3 l3 st2).1 in
  (_cached_midi_path st.1 ≠ Some p →
     parse_log st1.1 = parse_log st.1 ++ [p]
     ∧ midi_data st1.1 = parse_midi_file w1 p
     ∧ parse_count st2.1 = S (parse_count st.1))
  ∧ (_cached_midi_path st.1 = Some p → parse_count st2.1 = parse_count st.1)
  ∧ _cached_midi_path st1.1 = Some p
  ∧ midi_data st2.1 = midi_data st1.1
  ∧ _cached_midi_path st2.1 = _cached_midi_path st1.1
  ∧ parse_log st2.1 = parse_log st1.1
  ∧ parse_log st3.1 = parse_log st2.1 ++ [q]
  ∧ midi_data st3.1 = parse_midi_file w3 q
  ∧ _cached_midi_path st3.1 = Some q.
Proof.
  intros Hp1 Hp2 Hp Hq1 Hq Hqp st1 st2 st3.
  assert (_cached_midi_path st1.1 = Some p) as Hc1.
  { rewrite <- Hp1. apply (session_after_path_cached w1 c1 l1 st). by rewrite Hp1. }
  assert (same_cache st1.1 st2.1) as (Hd2 & Hc2 & Hl2).
  { apply (session_after_cached w2 c2 l2 st1). by rewrite Hp2. }
  assert (_cached_midi_path st2.1 ≠ Some (requested_path c3)) as Hne
    by (rewrite Hc2, Hc1, Hq1; congruence).
  destruct (session_after_new_path w3 c3 l3 st2) as (Hd3 & Hc3 & Hl3);
    [by rewrite Hq1|done|].
  rewrite Hq1 in Hd3, Hc3, Hl3.
  split_and!; try done.
  - intros Hnew.
    destruct (session_after_new_path w1 c1 l1 st) as (Hd1 & _ & Hl1);
      [by rewrite Hp1|by rewrite Hp1|].
    rewrite Hp1 in Hd1, Hl1. split_and!; try done.
    unfold parse_count. rewrite Hl2. fold st1. unfold session_after in Hl1.
    fold st1 in Hl1. rewrite Hl1, length_app. simpl. lia.
  - intros Hold.
    destruct (session_after_cached w1 c1 l1 st) as (_ & _ & Hl1);
      [by rewrite Hp1|].
    unfold parse_count. rewrite Hl2. fold st1. unfold session_after in Hl1.
    fold st1 in Hl1. by rewrite Hl1.
Qed.

Lemma same_path_parsed_once_witness :
  let c := node_call 15 30 "Hold" 1 2 (Some "two.mid") no_inputs in
  let c' := node_call 16 30 "Hold" 1 2 (Some "one.mid") no_inputs in
  let st1 := (mix_with_midi demo_world c demo_locals fresh_state).1 in
  let st2 := (mix_with_midi demo_world c demo_locals st1).1 in
  let st3 := (mix_with_midi demo_world c' demo_locals st2).1 in
  parse_log st1.1 = ["two.mid"]
  ∧ parse_log st2.1 = parse_log st1.1
  ∧ midi_data st2.1 = midi_data st1.1
  ∧ parse_log st3.1 = parse_log st2.1 ++ ["one.mid"].
Proof.
  intros c c' st1 st2 st3.
  pose proof (same_path_parsed_once demo_world demo_world demo_world c c c'
                demo_locals demo_locals demo_locals fresh_state
                "two.mid" "one.mid" eq_refl eq_refl ltac:(done)
                eq_refl ltac:(done) ltac:(done))
    as (Hnew & _ & _ & Hd2 & _ & Hl2 & Hl3 & _).
  assert (_cached_midi_path fresh_state.1 ≠ Some "two.mid") as Hfresh by done.
  destruct (Hnew Hfresh) as (Hl1 & _).
  exact (conj Hl1 (conj Hl2 (conj Hd2 Hl3))).
Defined.

(** A run of calls with the cached path on a session without parsed MIDI
    returns each time and leaves the cache alone. *)
Lemma run_calls_failed_path {HostStore Locals : Type}
    (calls : list (World * Call HostStore Locals * Locals))
    (st : Session * HostStore) (p : string) :
  Forall (fun call => requested_path call.1.2 = p) calls →
  _cached_midi_path st.1 = Some p →
  midi_data st.1 = None →
  (run_calls calls st).2 = Ok tt
  ∧ same_cache st.1 (run_calls calls st).1.1.
Proof.
  revert st. induction calls as [|[[w c] locals] rest IH]; intros st Hall Hc Hd.
  - simpl. split; [done|apply same_cache_refl].
  - apply Forall_cons in Hall as [Hp Hrest]. simpl in Hp.
    assert (load_midi w (requested_path c) (frame_number c) st.1
            = mkSession (midi_data st.1) (frame_number c) (track_states st.1)
                        (_cached_midi_path st.1) (parse_log st.1)) as Hload
      by (apply load_midi_cached; by rewrite Hp).
    simpl. rewrite mix_with_midi_no_data by by rewrite Hload.
    rewrite Hload.
    destruct (IH (mkSession (midi_data st.1) (frame_number c)
                            (track_states st.1) (_cached_midi_path st.1)
                            (parse_log st.1), st.2) Hrest Hc Hd) as [Hok Hsame].
    split; [done|]. eapply same_cache_trans; [|exact Hsame].
    by unfold same_cache.
Qed.

(** C9.  When parsing fails for a non-empty path that is not the cached one,
    the session records the path as cached with no parsed MIDI; every later
    call with the same path returns, parses nothing and finds the parsed
    MIDI still absent. *)
Theorem failed_parse_is_cached {HostStore Locals : Type}
    (w : World) (c : Call HostStore Locals) (locals : Locals)
    (st : Session * HostStore) (p : string)
    (calls : list (World * Call HostStore Locals * Locals)) :
  requested_path c = p →
  p ≠ "" →
  _cached_midi_path st.1 ≠ Some p →
  parse_midi_file w p = None →
  Forall (fun call => requested_path call.1.2 = p) calls →
  let st1 := (mix_with_midi w c locals st).1 in
  let final := run_calls calls st1 in
  _cached_midi_path st1.1 = Some p
  ∧ midi_data st1.1 = None
  ∧ parse_log st1.1 = parse_log st.1 ++ [p]
  ∧ final.2 = Ok tt
  ∧ _cached_midi_path final.1.1 = Some p
  ∧ midi_data final.1.1 = None
  ∧ parse_log final.1.1 = parse_log st1.1.
Proof.
  intros Hp Hne Hnew Hfail Hall st1 final.
  destruct (session_after_new_path w c locals st) as (Hd1 & Hc1 & Hl1);
    [by rewrite Hp|by rewrite Hp|].
  unfold session_after in Hd1, Hc1, Hl1. fold st1 in Hd1, Hc1, Hl1.
  rewrite Hp in Hd1, Hc1, Hl1. rewrite Hfail in Hd1.
  destruct (run_calls_failed_path calls st1 p Hall Hc1 Hd1)
    as (Hok & Hd & Hc & Hl).
  fold final in Hok, Hd, Hc, Hl.
  split_and!; try done; congruence.
Qed.

Lemma failed_parse_is_cached_witness :
  let c := node_call 3 30 "Velocity" 1 2 (Some "broken.mid") no_inputs in
  let st1 := (mix_with_midi demo_world c demo_locals state_after_two_tracks).1 in
  let final := run_calls [(demo_world, c, demo_locals);
                          (demo_world, c, demo_locals)] st1 in
  _cached_midi_path st1.1 = Some "broken.mid"
  ∧ midi_data st1.1 = None
  ∧ parse_log st1.1 = parse_log state_after_two_tracks.1 ++ ["broken.mid"]
  ∧ final.2 = Ok tt
  ∧ _cached_midi_path final.1.1 = Some "broken.mid"
  ∧ midi_data final.1.1 = None
  ∧ parse_log final.1.1 = parse_log st1.1.
Proof.
  intros c.
  apply (failed_parse_is_cached demo_world c demo_locals
           state_after_two_tracks "broken.mid"
           [(demo_world, c, demo_locals); (demo_world, c, demo_locals)]).
  - reflexivity.
  - discriminate.
  - vm_compute. discriminate.
  - vm_compute. reflexivity.
  - repeat constructor.
Defined.

(** ** The store: what the primitives do *)

Lemma load_heap (v : val) (h : Heap) : (load v h).1 = h.
Proof. unfold load. destruct v; try done. by destruct (h !! l). Qed.

Lemma load_inv (v : val) (h h' : Heap) (o : obj) :
  load v h = (h', Ok o) → h' = h ∧ ∃ l, v = VRef l ∧ h !! l = Some o.
Proof.
  unfold load. destruct v; try done.
  destruct (h !! l) eqn:E; [|done]. intros [= <- <-]. eauto.
Qed.

Lemma get_list_heap (v : val) (h : Heap) : (get_list v h).1 = h.
Proof.
  unfold get_list, mbind'. pose proof (load_heap v h) as H.
  destruct (load v h) as [h' [[items|entries]|e]]; simpl in *; by subst.
Qed.

Lemma get_list_inv (v : val) (h h' : Heap) (items : list val) :
  get_list v h = (h', Ok items) →
  h' = h ∧ ∃ l, v = VRef l ∧ h !! l = Some (OList items).
Proof.
  unfold get_list, mbind'.
  destruct (load v h) as [h1 [[items'|entries]|e]] eqn:E; try done.
  apply load_inv in E as (-> & l & -> & Hl). intros [= <- <-]. eauto.
Qed.

Lemma get_list_run (h : Heap) (l : loc) (items : list val) :
  h !! l = Some (OList items) → get_list (VRef l) h = (h, Ok items).
Proof. intros H. unfold get_list, mbind', load. by rewrite H. Qed.

Lemma get_dict_heap (v : val) (h : Heap) : (get_dict v h).1 = h.
Proof.
  unfold get_dict, mbind'. pose proof (load_heap v h) as H.
  destruct (load v h) as [h' [[items|entries]|e]]; simpl in *; by subst.
Qed.

Lemma get_dict_inv (v : val) (h h' : Heap) (entries : gmap string val) :
  get_dict v h = (h', Ok entries) →
  h' = h ∧ ∃ l, v = VRef l ∧ h !! l = Some (ODict entries).
Proof.
  unfold get_dict, mbind'.
  destruct (load v h) as [h1 [[items|entries']|e]] eqn:E; try done.
  apply load_inv in E as (-> & l & -> & Hl). intros [= <- <-]. eauto.
Qed.

Lemma get_dict_run (h : Heap) (l : loc) (entries : gmap string val) :
  h !! l = Some (ODict entries) → get_dict (VRef l) h = (h, Ok entries).
Proof. intros H. unfold get_dict, mbind', load. by rewrite H. Qed.

Lemma getitem_heap (v : val) (i : nat) (h : Heap) : (getitem v i h).1 = h.
Proof.
  unfold getitem, mbind'. pose proof (get_list_heap v h) as H.
  destruct (get_list v h) as [h' [items|e]]; simpl in *; subst; [|done].
  by destruct (items !! i).
Qed.

Lemma getitem_inv (v : val) (i : nat) (h h' : Heap) (x : val) :
  getitem v i h = (h', Ok x) →
  h' = h ∧ ∃ l items, v = VRef l ∧ h !! l = Some (OList items)
                      ∧ items !! i = Some x.
Proof.
  unfold getitem, mbind'.
  destruct (get_list v h) as [h1 [items|e]] eqn:E; [|done].
  apply get_list_inv in E as (-> & l & -> & Hl).
  destruct (items !! i) eqn:Ei; [|done]. intros [= <- <-]. eauto 6.
Qed.

Lemma getitem_run (h : Heap) (l : loc) (items : list val) (i : nat) (x : val) :
  h !! l = Some (OList items) → items !! i = Some x →
  getitem (VRef l) i h = (h, Ok x).
Proof.
  intros H Hi. unfold getitem, mbind'. rewrite (get_list_run h l items H).
  by rewrite Hi.
Qed.

Lemma dict_setitem_run (h : Heap) (l : loc) (entries : gmap string val)
    (k : string) (x : val) :
  h !! l = Some (ODict entries) →
  dict_setitem (VRef l) k x h = (<[l := ODict (<[k := x]> entries)]> h, Ok tt).
Proof.
  intros H. unfold dict_setitem, mbind'. by rewrite (get_dict_run h l entries H).
Qed.

Lemma list_append_run (h : Heap) (l : loc) (items : list val) (x : val) :
  h !! l = Some (OList items) →
  list_append (VRef l) x h = (<[l := OList (items ++ [x])]> h, Ok tt).
Proof.
  intros H. unfold list_append, mbind'. by rewrite (get_list_run h l items H).
Qed.

Lemma fresh_loc_unused (h : Heap) : h !! fresh (dom h) = None.
Proof. apply not_elem_of_dom, is_fresh. Qed.

Lemma lookup_alloc_old (h : Heap) (o o' : obj) (l : loc) :
  h !! l = Some o → <[fresh (dom h) := o']> h !! l = Some o.
Proof.
  intros H. rewrite lookup_insert_ne; [done|].
  intros <-. by rewrite fresh_loc_unused in H.
Qed.

(** The control hint of an image with a batch dimension, and of one
    without. *)
Example control_hint_batched :
  control_hint_of (mkTensor [2; 64; 48; 3]%nat 7)
  = Ok (mkTensor [2; 3; 64; 48]%nat 7).
Proof. reflexivity. Qed.

Example control_hint_single :
  control_hint_of (mkTensor [64; 48; 3]%nat 7)
  = Ok (mkTensor [1; 3; 64; 48]%nat 7).
Proof. reflexivity. Qed.

(** ** ControlNet on conditioning *)

Lemma lookup_two_items (items : list val) (t0 t1 : val) :
  items !! 0%nat = Some t0 → items !! 1%nat = Some t1 →
  ∃ rest, items = t0 :: t1 :: rest.
Proof.
  destruct items as [|a [|b rest]]; try done.
  intros [= ->] [= ->]. by exists rest.
Qed.

Lemma add_control_spec (h : Heap) (cnets_l cout_l : loc) (t : val)
    (outs : list val) :
  h !! cout_l = Some (OList outs) →
  ∃ h' r,
    add_control (VRef cnets_l) (VRef cout_l) t h = (h', r)
    ∧ (∀ l o, l ≠ cout_l → h !! l = Some o → h' !! l = Some o)
    ∧ match r with
      | Raise _ => h' !! cout_l = Some (OList outs)
      | Ok _ => ∃ nl, h' !! cout_l = Some (OList (outs ++ [VRef nl]))
                      ∧ new_entry h h' cnets_l t nl
      end
    ∧ (entry_ok h t → (∃ cn_items, h !! cnets_l = Some (OList cn_items)) →
       r = Ok tt).
Proof.
  intros Hout. unfold add_control, mbind'.
  destruct (getitem t 0 h) as [h_ [t0|e]] eqn:E0.
  2:{ pose proof (getitem_heap t 0 h) as Hh. rewrite E0 in Hh. simpl in Hh.
      subst h_. exists h, (Raise e). split_and!; try done.
      intros (tl' & t0' & dl' & rest' & d' & -> & Htl' & _) _.
      by rewrite (getitem_run h tl' _ 0 t0' Htl' eq_refl) in E0. }
  apply getitem_inv in E0 as (-> & tl & items & -> & Htl & Hi0).
  destruct (getitem (VRef tl) 1 h) as [h_ [t1|e]] eqn:E1.
  2:{ pose proof (getitem_heap (VRef tl) 1 h) as Hh. rewrite E1 in Hh.
      simpl in Hh. subst h_. exists h, (Raise e). split_and!; try done.
      intros (tl' & t0' & dl' & rest' & d' & [= <-] & Htl' & _) _.
      by rewrite (getitem_run h tl _ 1 (VRef dl') Htl' eq_refl) in E1. }
  apply getitem_inv in E1 as (-> & tl' & items' & [= <-] & Htl' & Hi1).
  assert (items' = items) as -> by congruence. clear Htl'.
  destruct (lookup_two_items items t0 t1 Hi0 Hi1) as [rest ->].
  unfold dict_copy, mbind'.
  destruct (get_dict t1 h) as [h_ [d|e]] eqn:Ed.
  2:{ pose proof (get_dict_heap t1 h) as Hh. rewrite Ed in Hh.
      simpl in Hh. subst h_. exists h, (Raise e). split_and!; try done.
      intros (tl' & t0' & dl' & rest' & d' & [= <-] & Htl' & Hdl' & _) _.
      assert (t1 = VRef dl') as -> by congruence.
      by rewrite (get_dict_run h dl' d' Hdl') in Ed. }
  apply get_dict_inv in Ed as (-> & dl & -> & Hdl).
  unfold alloc, mret'. cbv beta iota zeta.
  pose proof (fresh_loc_unused h) as Hndl.
  set (ndl := fresh (dom h)) in *.
  set (h1 := <[ndl := ODict d]> h).
  pose proof (fresh_loc_unused h1) as Hnl1.
  set (nl := fresh (dom h1)) in *.
  set (h2 := <[nl := OList [t0; VRef ndl]]> h1).
  assert (nl ≠ ndl) as Hnl_ndl.
  { intros Heq. rewrite Heq in Hnl1. unfold h1 in Hnl1.
    by rewrite lookup_insert_eq in Hnl1. }
  assert (h !! nl = None) as Hnl.
  { unfold h1 in Hnl1. by rewrite lookup_insert_ne in Hnl1. }
  assert (∀ l o, h !! l = Some o → h2 !! l = Some o) as Hkeep2.
  { intros l o Hl. unfold h2. by apply lookup_alloc_old, lookup_alloc_old. }
  assert (h2 !! nl = Some (OList [t0; VRef ndl])) as H2nl
    by (unfold h2; by rewrite lookup_insert_eq).
  assert (h2 !! ndl = Some (ODict d)) as H2ndl.
  { unfold h2, h1. rewrite lookup_insert_ne by done. by rewrite lookup_insert_eq. }
  rewrite (getitem_run h2 nl [t0; VRef ndl] 1 (VRef ndl) H2nl eq_refl).
  rewrite (get_dict_run h2 ndl d H2ndl).
  destruct (d !! "control") as [old|] eqn:Ec.
  - unfold list_concat, mbind'.
    destruct (get_list old h2) as [h_ [xs|e]] eqn:Ex.
    2:{ pose proof (get_list_heap old h2) as Hh. rewrite Ex in Hh.
        simpl in Hh. subst h_. exists h2, (Raise e). split_and!; eauto.
        intros (tl' & t0' & dl' & rest' & d' & [= <-] & Htl' & Hdl' & Hold) _.
        assert (dl' = dl) as -> by congruence.
        assert (d' = d) as -> by congruence.
        destruct (Hold old Ec) as (ol & old_items & -> & Hol).
        by rewrite (get_list_run h2 ol old_items (Hkeep2 _ _ Hol)) in Ex. }
    apply get_list_inv in Ex as (-> & ol & -> & Hol).
    destruct (get_list (VRef cnets_l) h2) as [h_ [ys|e]] eqn:Ey.
    2:{ pose proof (get_list_heap (VRef cnets_l) h2) as Hh. rewrite Ey in Hh.
        simpl in Hh. subst h_. exists h2, (Raise e). split_and!; eauto.
        intros _ (cn_items & Hcn).
        by rewrite (get_list_run h2 cnets_l cn_items (Hkeep2 _ _ Hcn)) in Ey. }
    apply get_list_inv in Ey as (-> & cl' & [= <-] & Hcn).
    unfold alloc, mret'. cbv beta iota zeta.
    pose proof (fresh_loc_unused h2) as Hcl2.
    set (cl := fresh (dom h2)) in *.
    set (h3 := <[cl := OList (xs ++ ys)]> h2).
    assert (∀ l o, h2 !! l = Some o → h3 !! l = Some o) as Hkeep3.
    { intros l o Hl. unfold h3. by apply lookup_alloc_old. }
    rewrite (getitem_run h3 nl [t0; VRef ndl] 1 (VRef ndl)
               (Hkeep3 _ _ H2nl) eq_refl).
    rewrite (dict_setitem_run h3 ndl d "control" (VRef cl) (Hkeep3 _ _ H2ndl)).
    set (h4 := <[ndl := ODict (<["control" := VRef cl]> d)]> h3).
    assert (∀ l o, l ≠ ndl → h3 !! l = Some o → h4 !! l = Some o) as Hkeep4.
    { intros l o Hl Hl3. unfold h4. by rewrite lookup_insert_ne. }
    assert (∀ l o, h !! l = Some o → h4 !! l = Some o) as Hkeep.
    { intros l o Hl. apply Hkeep4; [|by apply Hkeep3, Hkeep2].
      intros ->. congruence. }
    rewrite (list_append_run h4 cout_l outs (VRef nl) (Hkeep _ _ Hout)).
    eexists _, _. split; [done|]. split.
    { intros l o Hl Hlo. rewrite lookup_insert_ne by done. by apply Hkeep. }
    split; [|done].
    exists nl. split; [by rewrite lookup_insert_eq|].
    assert (cout_l ≠ nl) as Hc1 by (intros ->; congruence).
    assert (cout_l ≠ ndl) as Hc2 by (intros ->; congruence).
    assert (h !! cl = None) as Hcl.
    { destruct (h !! cl) eqn:E; [|done].
      apply Hkeep2 in E. congruence. }
    assert (cout_l ≠ cl) as Hc3 by (intros ->; congruence).
    assert (cl ≠ ndl) as Hc4 by (intros Heq; rewrite Heq in Hcl2; congruence).
    assert (cl ≠ nl) as Hc5 by (intros Heq; rewrite Heq in Hcl2; congruence).
    exists tl, t0, dl, rest, d, ndl, (VRef cl).
    split_and!; try done.
    + rewrite lookup_insert_ne by done. apply Hkeep4; [done|]. by apply Hkeep3.
    + rewrite lookup_insert_ne by done. unfold h4. by rewrite lookup_insert_eq.
    + rewrite Ec. exists cl, xs, ys. split_and!; try done.
      * rewrite lookup_insert_ne by done. unfold h4.
        rewrite lookup_insert_ne by done. unfold h3.
        by rewrite lookup_insert_eq.
      * intros ol' o [= <-] Ho. apply Hkeep2 in Ho. congruence.
      * intros o Ho. apply Hkeep2 in Ho. congruence.
  - rewrite (getitem_run h2 nl [t0; VRef ndl] 1 (VRef ndl) H2nl eq_refl).
    rewrite (dict_setitem_run h2 ndl d "control" (VRef cnets_l) H2ndl).
    set (h3 := <[ndl := ODict (<["control" := VRef cnets_l]> d)]> h2).
    assert (∀ l o, h !! l = Some o → h3 !! l = Some o) as Hkeep.
    { intros l o Hl. unfold h3. rewrite lookup_insert_ne; [by apply Hkeep2|].
      intros <-. congruence. }
    rewrite (list_append_run h3 cout_l outs (VRef nl) (Hkeep _ _ Hout)).
    eexists _, _. split; [done|]. split.
    { intros l o Hl Hlo. rewrite lookup_insert_ne by done. by apply Hkeep. }
    split; [|done].
    exists nl. split; [by rewrite lookup_insert_eq|].
    assert (cout_l ≠ nl) as Hc1 by (intros ->; congruence).
    assert (cout_l ≠ ndl) as Hc2 by (intros ->; congruence).
    exists tl, t0, dl, rest, d, ndl, (VRef cnets_l).
    split_and!; try done.
    + rewrite lookup_insert_ne by done. unfold h3.
      by rewrite lookup_insert_ne.
    + rewrite lookup_insert_ne by done. unfold h3. by rewrite lookup_insert_eq.
    + by rewrite Ec.
Qed.

Lemma entry_ok_mono (h0 h : Heap) (t : val) :
  (∀ l o, h0 !! l = Some o → h !! l = Some o) → entry_ok h0 t → entry_ok h t.
Proof.
  intros Hsub (tl & t0 & dl & rest & d & -> & Htl & Hdl & Hold).
  exists tl, t0, dl, rest, d. split_and!; auto.
  intros old Hc. destruct (Hold old Hc) as (ol & items & -> & Hol). eauto.
Qed.

Lemma controlled_entry_of_new (h0 h h1 h' : Heap) (cnets_l cout_l nl : loc)
    (added : list val) (t : val) :
  new_entry h h1 cnets_l t nl →
  entry_ok h0 t →
  (∀ l o, h0 !! l = Some o → h !! l = Some o) →
  h !! cnets_l = Some (OList added) →
  h0 !! cnets_l = None →
  is_Some (h !! cout_l) →
  cnets_l ≠ cout_l →
  (∀ l o, l ≠ cout_l → h !! l = Some o → h1 !! l = Some o) →
  (∀ l o, l ≠ cout_l → h1 !! l = Some o → h' !! l = Some o) →
  controlled_entry h0 h' added t (VRef nl).
Proof.
  intros (tl & t0 & dl & rest & d & ndl & ctl & -> & Htl & Hdl & Hnl & Hndl
          & H1nl & H1ndl & Hctl)
         (tl' & t0' & dl' & rest' & d' & [= <-] & Htl0 & Hdl0 & Hold)
         Hsub Hcn Hcn0 [oc Hcout] Hne Hframe1 Hframe.
  pose proof (Hsub _ _ Htl0) as Htl'. rewrite Htl in Htl'.
  injection Htl' as -> -> ->.
  pose proof (Hsub _ _ Hdl0) as Hdl'. rewrite Hdl in Hdl'.
  injection Hdl' as ->.
  assert (∀ l, h !! l = None → h0 !! l = None) as Hnone.
  { intros l Hl. destruct (h0 !! l) eqn:E; [|done].
    apply Hsub in E. congruence. }
  assert (∀ l, h !! l = None → l ≠ cout_l) as Hfresh
    by (intros l Hl ->; congruence).
  destruct (d' !! "control") as [old|] eqn:Ec.
  - destruct Hctl as (cl & old_items & cn_items & -> & Hcl & H1cl & Hread & Hcnr).
    destruct (Hold old eq_refl) as (ol & items & -> & Hol).
    pose proof (Hread ol _ eq_refl (Hsub _ _ Hol)) as [= <-].
    pose proof (Hcnr _ Hcn) as [= <-].
    exists tl, t0', dl', rest', d', nl, ndl, cl.
    split_and!; auto.
    unfold old_controls. rewrite Ec, Hol. auto.
  - subst ctl.
    exists tl, t0', dl', rest', d', nl, ndl, cnets_l.
    split_and!; auto.
    unfold old_controls. rewrite Ec. simpl. auto.
Qed.

Lemma for_each_add_control_frame (items : list val) (h : Heap)
    (cnets_l cout_l : loc) (outs : list val) :
  h !! cout_l = Some (OList outs) →
  (∀ l o, l ≠ cout_l → h !! l = Some o →
     (for_each items (add_control (VRef cnets_l) (VRef cout_l)) h).1 !! l
     = Some o)
  ∧ ∃ outs',
      (for_each items (add_control (VRef cnets_l) (VRef cout_l)) h).1 !! cout_l
      = Some (OList outs').
Proof.
  revert h outs. induction items as [|t items IH]; intros h outs Hout.
  { simpl. eauto. }
  simpl. unfold mbind'.
  destruct (add_control_spec h cnets_l cout_l t outs Hout)
    as (h1 & r & -> & Hframe & Hres & _).
  destruct r as [[]|e].
  - destruct Hres as (nl & Hout1 & _).
    destruct (IH h1 _ Hout1) as (Hframe' & outs' & Hout').
    split; [|eauto]. intros l o Hl Hlo. apply Hframe'; [done|]. by apply Hframe.
  - simpl. eauto.
Qed.

Lemma for_each_add_control_entries (items : list val) (h0 h : Heap)
    (cnets_l cout_l : loc) (added outs : list val) :
  (∀ l o, h0 !! l = Some o → h !! l = Some o) →
  h0 !! cout_l = None → h0 !! cnets_l = None → cnets_l ≠ cout_l →
  h !! cnets_l = Some (OList added) →
  h !! cout_l = Some (OList outs) →
  Forall (entry_ok h0) items →
  ∃ h' outs',
    for_each items (add_control (VRef cnets_l) (VRef cout_l)) h = (h', Ok tt)
    ∧ (∀ l o, l ≠ cout_l → h !! l = Some o → h' !! l = Some o)
    ∧ h' !! cout_l = Some (OList (outs ++ outs'))
    ∧ Forall2 (controlled_entry h0 h' added) items outs'.
Proof.
  revert h outs. induction items as [|t items IH];
    intros h outs Hsub Hc0 Hcn0 Hne Hcn Hout Hall.
  { exists h, []. simpl. rewrite app_nil_r. split_and!; auto. }
  apply Forall_cons in Hall as [Ht Hall].
  simpl. unfold mbind'.
  destruct (add_control_spec h cnets_l cout_l t outs Hout)
    as (h1 & r & -> & Hframe & Hres & Hok).
  assert (r = Ok tt) as ->
    by (apply Hok; [by eapply entry_ok_mono|by eauto]).
  destruct Hres as (nl & Hout1 & Hnew).
  assert (∀ l o, h0 !! l = Some o → h1 !! l = Some o) as Hsub1.
  { intros l o Hl. apply Hframe; [|by apply Hsub]. intros ->. congruence. }
  destruct (IH h1 (outs ++ [VRef nl]) Hsub1 Hc0 Hcn0 Hne
              (Hframe _ _ Hne Hcn) Hout1 Hall)
    as (h' & outs' & -> & Hframe' & Hout' & Hrest).
  exists h', (VRef nl :: outs'). split; [done|]. split_and!.
  - intros l o Hl Hlo. apply Hframe'; [done|]. by apply Hframe.
  - by rewrite <- app_assoc in Hout'.
  - constructor; [|done].
    by eapply (controlled_entry_of_new h0 h h1 h' cnets_l cout_l).
Qed.

Lemma controlled_entry_mono (h0 h1 h' : Heap) (added : list val) (t n : val) :
  (∀ l o, h1 !! l = Some o → h' !! l = Some o) →
  controlled_entry h0 h1 added t n → controlled_entry h0 h' added t n.
Proof.
  intros Hsub (tl & t0 & dl & rest & d & nl & ndl & cl & H).
  exists tl, t0, dl, rest, d, nl, ndl, cl.
  destruct H as (?&?&?&?&?&?&?&?&?&?). split_and!; auto.
Qed.

Lemma lookup_None_mono (h0 h : Heap) (l : loc) :
  (∀ l o, h0 !! l = Some o → h !! l = Some o) → h !! l = None → h0 !! l = None.
Proof.
  intros Hsub Hl. destruct (h0 !! l) eqn:E; [|done].
  apply Hsub in E. congruence.
Qed.

(** C10.  [apply_controlnet_to_conditioning] changes no object that was in
    the store before the call, whatever it is given and whether it returns
    or raises.  When the guard fails it returns its inputs and allocates
    nothing.  When the guard holds, on conditioning lists of entries and an
    image whose hint can be built, it returns two new, distinct lists; each
    of their entries is a new list with a new copy of the input entry's
    dictionary, in which ['control'] is a new list: the old control tuples
    followed by the new one. *)
Theorem controlnet_never_mutates_inputs
    (positive negative : val) (cn : option nat) (img : option Tensor)
    (strength track_strength : Q) (h : Heap) :
  let run := apply_controlnet_to_conditioning positive negative cn img
               strength track_strength h in
  h ⊆ run.1
  ∧ (apply_controlnet_guard cn img strength track_strength = false →
     run = (h, Ok (positive, negative)))
  ∧ (∀ net tensor hint pos_items neg_items,
       cn = Some net → img = Some tensor →
       apply_controlnet_guard cn img strength track_strength = true →
       control_hint_of tensor = Ok hint →
       conditioning_ok h positive pos_items →
       conditioning_ok h negative neg_items →
       ∃ c_pos c_neg entry out_pos out_neg,
         run.2 = Ok (VRef c_pos, VRef c_neg)
         ∧ h !! c_pos = None ∧ h !! c_neg = None ∧ c_pos ≠ c_neg
         ∧ h !! entry = None
         ∧ run.1 !! entry
           = Some (OList [VHandle net; VTensor hint;
                          VNum (strength * track_strength); VNum 0; VNum 1])
         ∧ run.1 !! c_pos = Some (OList out_pos)
         ∧ run.1 !! c_neg = Some (OList out_neg)
         ∧ Forall2 (controlled_entry h run.1 [VRef entry]) pos_items out_pos
         ∧ Forall2 (controlled_entry h run.1 [VRef entry]) neg_items out_neg).
Proof.
  intros run.
  assert (∀ h' : Heap, (∀ l o, h !! l = Some o → h' !! l = Some o) → h ⊆ h')
    as Hsubset by (intros h' H; by apply map_subseteq_spec).
  unfold apply_controlnet_guard. subst run.
  unfold apply_controlnet_to_conditioning.
  destruct cn as [net|]; [|by split_and!].
  destruct img as [tensor|]; [|by split_and!].
  destruct (Qltb 0 strength && Qltb 0 track_strength) eqn:Eguard;
    [|by split_and!].
  unfold mbind' at 1, mlift.
  destruct (control_hint_of tensor) as [hint|e] eqn:Ehint.
  2:{ simpl. split_and!; try done.
      intros net' tensor' hint' ? ? _ [= <-] _ Hh. congruence. }
  unfold mbind', alloc, mret'. cbv beta iota zeta.
  set (entry_obj := OList [VHandle net; VTensor hint;
                           VNum (strength * track_strength); VNum 0; VNum 1]).
  pose proof (fresh_loc_unused h) as Hentry.
  set (entry := fresh (dom h)) in *.
  set (h1 := <[entry := entry_obj]> h).
  pose proof (fresh_loc_unused h1) as Hcnets1.
  set (cnets := fresh (dom h1)) in *.
  set (h2 := <[cnets := OList [VRef entry]]> h1).
  pose proof (fresh_loc_unused h2) as Hcpos2.
  set (c_pos := fresh (dom h2)) in *.
  set (h3 := <[c_pos := OList []]> h2).
  assert (∀ l o, h !! l = Some o → h3 !! l = Some o) as Hsub3.
  { intros l o Hl. unfold h3, h2, h1. by do 3 apply lookup_alloc_old. }
  assert (h3 !! c_pos = Some (OList [])) as H3cpos
    by (unfold h3; by rewrite lookup_insert_eq).
  assert (h1 !! entry = Some entry_obj) as H1entry
    by (unfold h1; by rewrite lookup_insert_eq).
  assert (h3 !! entry = Some entry_obj) as H3entry
    by (unfold h3, h2; by do 2 apply lookup_alloc_old).
  assert (h3 !! cnets = Some (OList [VRef entry])) as H3cnets.
  { unfold h3. apply lookup_alloc_old. unfold h2. by rewrite lookup_insert_eq. }
  assert (h !! c_pos = None) as Hcpos by (by apply (lookup_None_mono h h2);
    [intros l o Hl; unfold h2, h1; by do 2 apply lookup_alloc_old|]).
  assert (h !! cnets = None) as Hcnets by (by apply (lookup_None_mono h h1);
    [intros l o Hl; unfold h1; by apply lookup_alloc_old|]).
  assert (cnets ≠ c_pos) as Hne_pos.
  { intros Heq. rewrite <- Heq in Hcpos2. unfold h2 in Hcpos2.
    by rewrite lookup_insert_eq in Hcpos2. }
  destruct (get_list positive h3) as [h_ [pos_read|e]] eqn:Epos.
  2:{ pose proof (get_list_heap positive h3) as Hh. rewrite Epos in Hh.
      simpl in Hh. subst h_. simpl. split; [by apply Hsubset|].
      split; [done|].
      intros net' tensor' hint' pos_items neg_items _ _ _ _
             (lp & -> & Hlp & _) _.
      by rewrite (get_list_run h3 lp pos_items (Hsub3 _ _ Hlp)) in Epos. }
  apply get_list_inv in Epos as (-> & lp & -> & Hlp3).
  pose proof (for_each_add_control_frame pos_read h3 cnets c_pos [] H3cpos)
    as (Hframe4 & outs4 & H4cpos).
  destruct (for_each pos_read (add_control (VRef cnets) (VRef c_pos)) h3)
    as [h4 r4] eqn:Eloop1. simpl in Hframe4, H4cpos.
  assert (∀ l o, h !! l = Some o → h4 !! l = Some o) as Hsub4.
  { intros l o Hl. apply Hframe4; [|by apply Hsub3]. intros ->. congruence. }
  destruct r4 as [[]|e].
  2:{ simpl. split; [by apply Hsubset|]. split; [done|].
      intros net' tensor' hint' pos_items neg_items _ _ _ _
             (lp' & [= <-] & Hlp & Hpos_ok) _.
      pose proof (Hsub3 _ _ Hlp) as Hlp'. rewrite Hlp3 in Hlp'.
      injection Hlp' as ->.
      destruct (for_each_add_control_entries pos_items h h3 cnets c_pos
                  [VRef entry] [] Hsub3 Hcpos Hcnets Hne_pos H3cnets H3cpos
                  Hpos_ok) as (h' & outs' & Hrun & _).
      congruence. }
  pose proof (fresh_loc_unused h4) as Hcneg4.
  set (c_neg := fresh (dom h4)) in *.
  set (h5 := <[c_neg := OList []]> h4).
  assert (∀ l o, h4 !! l = Some o → h5 !! l = Some o) as Hsub45
    by (intros l o Hl; unfold h5; by apply lookup_alloc_old).
  assert (h5 !! c_neg = Some (OList [])) as H5cneg
    by (unfold h5; by rewrite lookup_insert_eq).
  assert (h !! c_neg = None) as Hcneg by (by apply (lookup_None_mono h h4)).
  assert (cnets ≠ c_neg) as Hne_neg.
  { intros Heq. rewrite <- Heq in Hcneg4.
    rewrite (Hframe4 cnets _ Hne_pos H3cnets) in Hcneg4. done. }
  assert (h5 !! cnets = Some (OList [VRef entry])) as H5cnets
    by (by apply Hsub45, Hframe4).
  destruct (get_list negative h5) as [h_ [neg_read|e]] eqn:Eneg.
  2:{ pose proof (get_list_heap negative h5) as Hh. rewrite Eneg in Hh.
      simpl in Hh. subst h_. simpl. split; [apply Hsubset; by auto|].
      split; [done|].
      intros net' tensor' hint' pos_items neg_items _ _ _ _ _
             (ln & -> & Hln & _).
      by rewrite (get_list_run h5 ln neg_items
                    (Hsub45 _ _ (Hsub4 _ _ Hln))) in Eneg. }
  apply get_list_inv in Eneg as (-> & ln & -> & Hln5).
  pose proof (for_each_add_control_frame neg_read h5 cnets c_neg [] H5cneg)
    as (Hframe6 & outs6 & H6cneg).
  destruct (for_each neg_read (add_control (VRef cnets) (VRef c_neg)) h5)
    as [h6 r6] eqn:Eloop2. simpl in Hframe6, H6cneg.
  assert (∀ l o, h4 !! l = Some o → h6 !! l = Some o) as Hsub46.
  { intros l o Hl. apply Hframe6; [|by apply Hsub45]. intros ->. congruence. }
  assert (∀ l o, h !! l = Some o → h5 !! l = Some o) as Hsub5 by auto.
  destruct r6 as [[]|e]; simpl.
  2:{ split; [apply Hsubset; by auto|]. split; [done|].
      intros net' tensor' hint' pos_items neg_items _ _ _ _ _
             (ln' & [= <-] & Hln & Hneg_ok).
      pose proof (Hsub5 _ _ Hln) as Hln'. rewrite Hln5 in Hln'.
      injection Hln' as ->.
      destruct (for_each_add_control_entries neg_items h h5 cnets c_neg
                  [VRef entry] [] Hsub5 Hcneg Hcnets Hne_neg H5cnets H5cneg
                  Hneg_ok) as (h' & outs' & Hrun & _).
      congruence. }
  split; [apply Hsubset; by auto|]. split; [done|].
  intros net' tensor' hint' pos_items neg_items [= <-] [= <-] _ Hh
         (lp' & [= <-] & Hlp & Hpos_ok) (ln' & [= <-] & Hln & Hneg_ok).
  assert (hint' = hint) as -> by congruence.
  pose proof (Hsub3 _ _ Hlp) as Hlp'. rewrite Hlp3 in Hlp'.
  injection Hlp' as ->.
  pose proof (Hsub5 _ _ Hln) as Hln'. rewrite Hln5 in Hln'.
  injection Hln' as ->.
  destruct (for_each_add_control_entries pos_items h h3 cnets c_pos
              [VRef entry] [] Hsub3 Hcpos Hcnets Hne_pos H3cnets H3cpos
              Hpos_ok) as (h4' & out_pos & Hrun1 & _ & Hout_pos & Hpos).
  rewrite Eloop1 in Hrun1. injection Hrun1 as <-.
  destruct (for_each_add_control_entries neg_items h h5 cnets c_neg
              [VRef entry] [] Hsub5 Hcneg Hcnets Hne_neg H5cnets H5cneg
              Hneg_ok) as (h6' & out_neg & Hrun2 & _ & Hout_neg & Hneg).
  rewrite Eloop2 in Hrun2. injection Hrun2 as <-.
  exists c_pos, c_neg, entry, out_pos, out_neg.
  split_and!; try done.
  - intros Heq. rewrite Heq in H4cpos. congruence.
  - apply Hsub46, Hframe4; [|done]. intros Heq. rewrite <- Heq in Hcpos2.
    unfold h2 in Hcpos2. rewrite (lookup_alloc_old h1 _ _ _ H1entry) in Hcpos2.
    done.
  - by apply Hsub46.
  - eapply Forall2_impl; [exact Hpos|]. intros t n.
    by apply controlled_entry_mono.
Qed.

Example demo_controlnet_outputs :
  demo_controlnet_run.2 = Ok (VRef 10%nat, VRef 14%nat)
  ∧ demo_controlnet_run.1 !! 10%nat = Some (OList [VRef 12%nat])
  ∧ demo_controlnet_run.1 !! 12%nat = Some (OList [VHandle 20; VRef 11%nat])
  ∧ demo_controlnet_run.1 !! 11%nat
    = Some (ODict (<["control" := VRef 13%nat]>
                     (<["pooled_output" := VHandle 21]> ∅)))
  ∧ demo_controlnet_run.1 !! 13%nat = Some (OList [VRef 4%nat; VRef 8%nat])
  ∧ demo_controlnet_run.1 !! 15%nat
    = Some (ODict (<["control" := VRef 9%nat]> ∅))
  ∧ demo_controlnet_run.1 !! 9%nat = Some (OList [VRef 8%nat])
  ∧ demo_controlnet_run.1 !! 2%nat = demo_heap !! 2%nat
  ∧ demo_controlnet_run.1 !! 3%nat = demo_heap !! 3%nat.
Proof. by vm_compute. Qed.

(** The whole node on frame 15 of "one.mid" in Hold mode, with the
    ControlNet of slot 0: the strength of slot 0 reaches the conditioning,
    and the conditioning returned is the new one. *)
Example node_with_controlnet :
  outcome demo_world
    (node_call 15 30 "Hold" 1 2 (Some "one.mid") control_on_slot_0)
    (0%nat, VRef 0%nat, VRef 5%nat) (init_session, demo_heap)
  = Ok (mkOutput (0%nat, VRef 10%nat, VRef 14%nat) (60000000 # 500000)
                 [1%Q; 0%Q; 0%Q; 0%Q])
  ∧ (mix_with_midi demo_world
       (node_call 15 30 "Hold" 1 2 (Some "one.mid") control_on_slot_0)
       (0%nat, VRef 0%nat, VRef 5%nat) (init_session, demo_heap)).1.2
    = demo_controlnet_run.1.
Proof. by vm_compute. Qed.

Lemma demo_positive_ok :
  conditioning_ok demo_heap (VRef 0%nat) [VRef 1%nat].
Proof.
  exists 0%nat. split; [done|]. split; [by vm_compute|].
  constructor; [|constructor].
  exists 1%nat, (VHandle 20), 2%nat, [],
         (<["control" := VRef 3%nat]> (<["pooled_output" := VHandle 21]> ∅)).
  split; [done|]. split; [by vm_compute|]. split; [by vm_compute|].
  intros old Hold. exists 3%nat, [VRef 4%nat].
  split; [|by vm_compute].
  rewrite lookup_insert_eq in Hold. congruence.
Defined.

Lemma demo_negative_ok :
  conditioning_ok demo_heap (VRef 5%nat) [VRef 6%nat].
Proof.
  exists 5%nat. split; [done|]. split; [by vm_compute|].
  constructor; [|constructor].
  exists 6%nat, (VHandle 22), 7%nat, [], ∅.
  split; [done|]. split; [by vm_compute|]. split; [by vm_compute|].
  intros old Hold. by rewrite lookup_empty in Hold.
Defined.

Lemma controlnet_never_mutates_inputs_witness :
  demo_heap ⊆ demo_controlnet_run.1
  ∧ ∃ c_pos c_neg out_pos,
      demo_controlnet_run.2 = Ok (VRef c_pos, VRef c_neg)
      ∧ demo_heap !! c_pos = None ∧ demo_heap !! c_neg = None
      ∧ c_pos ≠ c_neg
      ∧ demo_controlnet_run.1 !! c_pos = Some (OList out_pos)
      ∧ length out_pos = 1%nat.
Proof.
  destruct (controlnet_never_mutates_inputs (VRef 0%nat) (VRef 5%nat)
              (Some 50%nat) (Some demo_image) (1 # 2) 1 demo_heap)
    as (Hsub & _ & Happlied).
  split; [exact Hsub|].
  destruct (Happlied 50%nat demo_image (mkTensor [1; 3; 64; 48]%nat 40)
              [VRef 1%nat] [VRef 6%nat] eq_refl eq_refl eq_refl eq_refl
              demo_positive_ok demo_negative_ok)
    as (c_pos & c_neg & entry & out_pos & out_neg & Hret & Hp & Hn & Hne & _
        & _ & Hout & _ & Hentries & _).
  exists c_pos, c_neg, out_pos. split_and!; try assumption.
  apply Forall2_length in Hentries. by rewrite <- Hentries.
Defined.

(** ** The claims at concrete inputs *)


Lemma active_iff_not_yet_ended_witness :
  mkEvent 0 note_on 60 100 ∈ active_notes scenario_track 480
  ∧ (0%nat, mkEvent 0 note_on 60 100) ∉ active_entries scenario_track 960.
Proof.
  assert (ends_note (mkEvent 0 note_on 60 100) (mkEvent 960 note_off 60 0))
    as Hends by (split; [done|by left]).
  assert (∀ k y, (0 < k < 1)%nat → scenario_track !! k = Some y →
                 ¬ ends_note (mkEvent 0 note_on 60 100) y) as Hnone
    by (intros k y Hk; lia).
  split.
  - destruct (active_iff_not_yet_ended scenario_track 480 0%nat
                (mkEvent 0 note_on 60 100)) as [_ Hpair];
      [reflexivity|reflexivity|simpl; lia|by vm_compute|].
    destruct (Hpair 1%nat (mkEvent 960 note_off 60 0)) as [Hactive _];
      [lia|reflexivity|exact Hends|exact Hnone|].
    apply Hactive. by vm_compute.
  - destruct (active_iff_not_yet_ended scenario_track 960 0%nat
                (mkEvent 0 note_on 60 100)) as [_ Hpair];
      [reflexivity|reflexivity|simpl; lia|by vm_compute|].
    destruct (Hpair 1%nat (mkEvent 960 note_off 60 0)) as [_ Hinactive];
      [lia|reflexivity|exact Hends|exact Hnone|].
    apply Hinactive. by vm_compute.
Defined.

Lemma pulse_non_increasing_then_zero_witness :
  ∃ s1 s2,
    strength_at_midi_time scenario_track 120 "Pulse" 480 2 = Ok s1
    ∧ strength_at_midi_time scenario_track 240 "Pulse" 480 2 = Ok s2
    ∧ (s2 <= s1)%Q
    ∧ (s2 == 0)%Q.
Proof.
  destruct (pulse_non_increasing_then_zero scenario_track 120 240 480 2
              (mkEvent 0 note_on 60 100))
    as (s1 & s2 & H1 & H2 & _ & _ & Hle & Hzero);
    [lia|by vm_compute|by vm_compute|by vm_compute|by vm_compute|].
  exists s1, s2. split; [exact H1|]. split; [exact H2|]. split; [exact Hle|].
  apply Hzero. by vm_compute.
Defined.

(** * Further properties of the code *)

(** ** The track extractor *)

Lemma first_set_tempo_none (msgs : list Msg) (default : Z) :
  (∀ m, m ∈ msgs → is_set_tempo m = false) →
  first_set_tempo msgs default = default.
Proof.
  induction msgs as [|m msgs IH]; intros Hnone; [done|].
  assert (is_set_tempo m = false) as Hm by (apply Hnone; by left).
  destruct m; simpl in *; try done; apply IH; intros m' Hm';
    apply Hnone; by right.
Qed.

(** X1.  The tempo is that of the first tempo event of the track, whatever
    tempo events follow it; without any, it is the default. *)
Theorem first_set_tempo_takes_first
    (before after : list Msg) (delta t default : Z) :
  (∀ m, m ∈ before → is_set_tempo m = false) →
  first_set_tempo (before ++ SetTempo delta t :: after) default = t
  ∧ first_set_tempo before default = default.
Proof.
  intros Hnone. split; [|by apply first_set_tempo_none].
  induction before as [|m before IH]; [done|].
  assert (is_set_tempo m = false) as Hm by (apply Hnone; by left).
  destruct m; simpl in *; try done; apply IH; intros m' Hm';
    apply Hnone; by right.
Qed.

Lemma first_set_tempo_takes_first_witness :
  first_set_tempo
    ([OtherMsg 0; NoteMsg note_on 10 60 100] ++ SetTempo 0 600000
       :: [SetTempo 480 250000]) 500000 = 600000
  ∧ first_set_tempo [OtherMsg 0; NoteMsg note_on 10 60 100] 500000 = 500000.
Proof.
  apply (first_set_tempo_takes_first [OtherMsg 0; NoteMsg note_on 10 60 100]
           [SetTempo 480 250000] 0 600000 500000).
  intros m Hm. apply list_elem_of_In in Hm. simpl in Hm.
  destruct Hm as [<-|[<-|[]]]; reflexivity.
Defined.

Lemma track_events_app (t : Z) (before after : list Msg) :
  track_events t (before ++ after)
  = track_events t before ++ track_events (t + total_delta before) after.
Proof.
  revert t. induction before as [|m before IH]; intros t; simpl.
  - by rewrite Z.add_0_r.
  - replace (t + (msg_time m + total_delta before))
      with (t + msg_time m + total_delta before) by lia.
    destruct m; simpl; by rewrite IH.
Qed.

(** X2.  A note message becomes one event, after the events of the
    messages before it and before those of the messages after it; its time
    is the start time plus the deltas of all messages up to it, those of
    the dropped messages included; type, note and velocity are the
    message's. *)
Theorem track_events_note_message
    (t : Z) (before after : list Msg) (ty : EventType) (delta n v : Z) :
  track_events t (before ++ NoteMsg ty delta n v :: after)
  = track_events t before
    ++ mkEvent (t + total_delta before + delta) ty n v
    :: track_events (t + total_delta before + delta) after.
Proof. by rewrite track_events_app. Qed.

Lemma track_events_from (t : Z) (msgs : list Msg) (e : MidiEvent) :
  deltas_nonneg msgs → e ∈ track_events t msgs →
  t ≤ time e ≤ t + total_delta msgs.
Proof.
  revert t. induction msgs as [|m msgs IH]; intros t Hpos He; simpl in *.
  { by apply elem_of_nil in He. }
  assert (0 ≤ msg_time m) as Hm by (apply Hpos; by left).
  assert (deltas_nonneg msgs) as Hrest
    by (intros m' Hm'; apply Hpos; by right).
  assert (0 ≤ total_delta msgs) as Htotal.
  { clear -Hrest. induction msgs as [|m' msgs IH']; simpl; [lia|].
    assert (0 ≤ msg_time m') by (apply Hrest; by left).
    assert (0 ≤ total_delta msgs)
      by (apply IH'; intros x Hx; apply Hrest; by right).
    lia. }
  destruct m; simpl in *.
  - apply elem_of_cons in He as [->|He]; [simpl; lia|].
    specialize (IH _ Hrest He). lia.
  - specialize (IH _ Hrest He). lia.
  - specialize (IH _ Hrest He). lia.
Qed.

(** X3.  When no message has a negative delta, the events of a track are
    in time order: an event never has a smaller time than an event before
    it, and all times lie between the start time and the start time plus
    the sum of the deltas. *)
Theorem track_events_in_time_order
    (t : Z) (msgs : list Msg) (i j : nat) (e1 e2 : MidiEvent) :
  deltas_nonneg msgs →
  (i ≤ j)%nat →
  track_events t msgs !! i = Some e1 →
  track_events t msgs !! j = Some e2 →
  time e1 ≤ time e2 ∧ t ≤ time e1 ∧ time e2 ≤ t + total_delta msgs.
Proof.
  intros Hpos Hij H1 H2.
  split; [|split; [by eapply track_events_from, list_elem_of_lookup_2
                  |by eapply track_events_from, list_elem_of_lookup_2]].
  revert t i j Hij H1 H2. induction msgs as [|m msgs IH];
    intros t i j Hij H1 H2; simpl in *; [done|].
  assert (deltas_nonneg msgs) as Hrest
    by (intros m' Hm'; apply Hpos; by right).
  destruct m; simpl in *; try by eapply (IH Hrest).
  destruct i as [|i], j as [|j]; simpl in *; try lia.
  - injection H1 as <-. injection H2 as <-. lia.
  - injection H1 as <-. simpl.
    eapply track_events_from; [exact Hrest|by eapply list_elem_of_lookup_2].
  - eapply (IH Hrest _ i j); [lia|done|done].
Qed.

Lemma track_events_in_time_order_witness :
  time (mkEvent 10 note_on 60 100) ≤ time (mkEvent 970 note_off 60 0)
  ∧ 0 ≤ time (mkEvent 10 note_on 60 100)
  ∧ time (mkEvent 970 note_off 60 0) ≤ 0 + total_delta
      [OtherMsg 10; NoteMsg note_on 0 60 100; OtherMsg 480;
       NoteMsg note_off 480 60 0].
Proof.
  apply (track_events_in_time_order 0
           [OtherMsg 10; NoteMsg note_on 0 60 100; OtherMsg 480;
            NoteMsg note_off 480 60 0] 0 1).
  - intros m Hm. apply list_elem_of_In in Hm. simpl in Hm.
    destruct Hm as [<-|[<-|[<-|[<-|[]]]]]; simpl; lia.
  - lia.
  - reflexivity.
  - reflexivity.
Defined.

(** X4.  [parse_midi_file] returns [None] in exactly these cases: mido is
    not available, the path is empty, nothing is at the path, mido cannot
    load what is there, the file has no track, or the tempo found in track
    0 is 0 (the BPM division fails inside the [try]). *)
Theorem parse_midi_file_none_iff (w : World) (midi_path : string) :
  parse_midi_file w midi_path = None
  ↔ MIDI_AVAILABLE w = false
    ∨ midi_path = ""
    ∨ file_at w midi_path = NoFile
    ∨ file_at w midi_path = Unreadable
    ∨ ∃ mid, file_at w midi_path = MidiContent mid
             ∧ (mid_tracks mid = []
                ∨ ∃ track0 others, mid_tracks mid = track0 :: others
                                   ∧ first_set_tempo track0 500000 = 0).
Proof.
  unfold parse_midi_file, path_exists.
  destruct (MIDI_AVAILABLE w); simpl; [|by split; [left|]].
  destruct (String.eqb_spec midi_path "") as [->|Hpath]; simpl.
  { split; [by right; left|done]. }
  destruct (file_at w midi_path) as [| |mid] eqn:Efile; simpl.
  - split; [by right; right; left|done].
  - split; [by right; right; right; left|done].
  - destruct (mid_tracks mid) as [|track0 others] eqn:Etracks; simpl.
    { split; [|done]. intros _. do 4 right. exists mid. split; [done|by left]. }
    unfold py_truediv.
    destruct (Qeq_bool (inject_Z (first_set_tempo track0 500000)) 0) eqn:Ez;
      simpl.
    + split; [|done]. intros _. do 4 right. exists mid. split; [done|].
      right. exists track0, others. split; [done|].
      apply Qeq_bool_iff in Ez. unfold Qeq in Ez. simpl in Ez. lia.
    + split; [done|].
      intros [?|[?|[?|[?|(mid' & [= <-] & [Hnil|(t0 & o & Ht & Hz)])]]]];
        try done.
      * rewrite Etracks in Hnil. done.
      * rewrite Etracks in Ht. injection Ht as <- <-.
        rewrite Hz in Ez. done.
Qed.

Lemma parse_midi_file_fields (w : World) (midi_path : string) (d : ParsedMidi) :
  parse_midi_file w midi_path = Some d →
  ∃ mid track0 others,
    MIDI_AVAILABLE w = true ∧ midi_path ≠ ""
    ∧ file_at w midi_path = MidiContent mid
    ∧ mid_tracks mid = track0 :: others
    ∧ tempo d = first_set_tempo track0 500000 ∧ tempo d ≠ 0
    ∧ (bpm d * inject_Z (tempo d) == 60000000)%Q
    ∧ ticks_per_beat d = mid_ticks_per_beat mid
    ∧ length (tracks d) = (length (mid_tracks mid) `min` 4)%nat
    ∧ (∀ i, (i < 4)%nat →
            tracks d !! i = track_events 0 <$> (mid_tracks mid !! i))
    ∧ (∀ i, (4 ≤ i)%nat → tracks d !! i = None).
Proof.
  unfold parse_midi_file, path_exists.
  destruct (MIDI_AVAILABLE w); simpl; [|done].
  destruct (String.eqb_spec midi_path "") as [->|Hpath]; simpl; [done|].
  destruct (file_at w midi_path) as [| |mid] eqn:Efile; simpl; try done.
  remember (track_events 0 <$> take 4 (mid_tracks mid)) as parsed eqn:Hparsed.
  destruct (mid_tracks mid) as [|track0 others] eqn:Etracks; simpl; [done|].
  unfold py_truediv.
  destruct (Qeq_bool (inject_Z (first_set_tempo track0 500000)) 0) eqn:Ez;
    simpl; [done|].
  intros [= <-]. exists mid, track0, others.
  cbn [tracks tempo ticks_per_beat bpm].
  assert (first_set_tempo track0 500000 ≠ 0) as Hne.
  { intros Hz. rewrite Hz in Ez. done. }
  rewrite <- Etracks. subst parsed.
  split_and!; try done.
  - field. intros Hq. apply Qeq_bool_iff in Hq. congruence.
  - rewrite length_fmap, length_take, ?Etracks. lia.
  - intros i Hi. by rewrite list_lookup_fmap, lookup_take_lt, ?Etracks by lia.
  - intros i Hi. apply lookup_ge_None. rewrite length_fmap, length_take. lia.
Qed.



Lemma track_events_velocity (t : Z) (msgs : list Msg) (e : MidiEvent) :
  e ∈ track_events t msgs →
  ∃ delta, NoteMsg (type e) delta (note e) (velocity e) ∈ msgs.
Proof.
  revert t. induction msgs as [|m msgs IH]; intros t He; simpl in *.
  { by apply elem_of_nil in He. }
  destruct m; simpl in *.
  - apply elem_of_cons in He as [->|He].
    + exists delta. simpl. by left.
    + destruct (IH _ He) as [delta' H]. exists delta'. by right.
  - destruct (IH _ He) as [delta' H]. exists delta'. by right.
  - destruct (IH _ He) as [delta' H]. exists delta'. by right.
Qed.

(** X6.  Parsed data is well formed for the mixer (tempo not 0, positive
    resolution, velocities in 0..127) whenever the file has a positive
    resolution and the note messages of its first four tracks have
    velocities in 0..127. *)
Theorem parse_midi_file_well_formed
    (w : World) (midi_path : string) (d : ParsedMidi) (mid : MidiFile) :
  parse_midi_file w midi_path = Some d →
  file_at w midi_path = MidiContent mid →
  0 < mid_ticks_per_beat mid →
  (∀ msgs, msgs ∈ take 4 (mid_tracks mid) → note_velocities_ok msgs) →
  well_formed_midi d.
Proof.
  intros Hparse Hfile Htpb Hvel.
  destruct (parse_midi_file_fields w midi_path d Hparse)
    as (mid' & track0 & others & _ & _ & Hfile' & _ & _ & Htempo & _ & Ht
        & _ & Htracks & _).
  assert (mid' = mid) as -> by congruence.
  split; [done|]. split; [by rewrite Ht|].
  intros track_data Hin e He.
  apply list_elem_of_lookup in Hin as [i Hi].
  assert (i < 4)%nat as Hi4.
  { destruct (decide (i < 4)%nat) as [|Hge]; [done|].
    destruct (parse_midi_file_fields w midi_path d Hparse)
      as (_ & _ & _ & _ & _ & _ & _ & _ & _ & _ & _ & _ & _ & Hnone).
    rewrite Hnone in Hi by lia. done. }
  rewrite Htracks in Hi by done.
  destruct (mid_tracks mid !! i) as [msgs|] eqn:Emsgs; [|done].
  injection Hi as <-.
  destruct (track_events_velocity 0 msgs e He) as [delta Hmsg].
  eapply (Hvel msgs); [|exact Hmsg].
  apply list_elem_of_lookup. exists i. by rewrite lookup_take_lt.
Qed.

Lemma parse_midi_file_well_formed_witness : well_formed_midi one_track_parsed.
Proof.
  apply (parse_midi_file_well_formed demo_world "one.mid" one_track_parsed
           one_track_file).
  - vm_compute. reflexivity.
  - reflexivity.
  - simpl. lia.
  - intros msgs Hin ty delta n v Hmsg.
    apply list_elem_of_In in Hin. simpl in Hin. destruct Hin as [<-|[]].
    apply list_elem_of_In in Hmsg. simpl in Hmsg.
    destruct Hmsg as [[= <- <- <- <-]|[[= <- <- <- <-]|[]]]; lia.
Defined.

(** ** Strengths *)



(** X8.  Hold never divides by the resolution: with fps and tempo other
    than 0 it returns exactly 0 when no note is active at the tick position
    and exactly 1 otherwise, for every resolution and decay rate. *)
Theorem hold_is_zero_or_one
    (track_data : list MidiEvent) (frame fps tpb tempo : Z) (decay_rate : Q) :
  fps ≠ 0 → tempo ≠ 0 →
  ∃ tick,
    midi_time_of_frame frame fps tempo tpb = Ok tick
    ∧ get_track_strength_at_frame track_data frame fps "Hold" tpb tempo decay_rate
      = Ok (match active_notes track_data tick with
            | [] => 0%Q
            | _ :: _ => 1%Q
            end).
Proof.
  intros Hfps Htempo. eexists. split; [by apply midi_time_of_frame_ok|].
  unfold get_track_strength_at_frame. destruct track_data as [|e0 rest]; [done|].
  rewrite midi_time_of_frame_ok by done. simpl.
  unfold strength_at_midi_time. by destruct (active_notes _ _).
Qed.

Lemma hold_is_zero_or_one_witness :
  ∃ tick,
    midi_time_of_frame 15 30 500000 480 = Ok tick
    ∧ get_track_strength_at_frame scenario_track 15 30 "Hold" 480 500000 2
      = Ok (match active_notes scenario_track tick with
            | [] => 0%Q
            | _ :: _ => 1%Q
            end).
Proof.
  apply (hold_is_zero_or_one scenario_track 15 30 480 500000 2); lia.
Defined.




(** X10.  In Pulse mode, at the tick of the most recent active NoteOn, the
    strength is that note's velocity/127: nothing has decayed yet, whatever
    the decay rate. *)
Theorem pulse_full_at_trigger
    (track_data : list MidiEvent) (midi_time : Q) (tpb : Z) (decay_rate : Q)
    (e : MidiEvent) :
  tpb ≠ 0 →
  most_recent_active track_data midi_time = Some e →
  (midi_time == inject_Z (time e))%Q →
  ∃ s, strength_at_midi_time track_data midi_time "Pulse" tpb decay_rate = Ok s
       ∧ (s == inject_Z (velocity e) / 127)%Q.
Proof.
  intros Htpb Hrecent Hnow. eexists. split; [by apply pulse_strength|].
  assert ((midi_time - inject_Z (time e)) / inject_Z tpb * decay_rate == 0)%Q
    as Hzero.
  { rewrite Hnow. field. intros Hz. unfold Qeq in Hz. simpl in Hz. lia. }
  unfold py_max0.
  destruct (Qltb 0 (1 - (midi_time - inject_Z (time e)) / inject_Z tpb
                        * decay_rate)) eqn:E.
  - rewrite Hzero. unfold velocity_ratio. ring.
  - apply Qltb_false in E. rewrite Hzero in E. lra.
Qed.

Lemma pulse_full_at_trigger_witness :
  ∃ s, strength_at_midi_time scenario_track 0 "Pulse" 480 10 = Ok s
       ∧ (s == inject_Z 100 / 127)%Q.
Proof.
  apply (pulse_full_at_trigger scenario_track 0 480 10
           (mkEvent 0 note_on 60 100)).
  - lia.
  - by vm_compute.
  - by vm_compute.
Defined.

(** X11.  A trigger mode that is none of the four gives 0.0: on an empty
    track always, and on any track when fps and tempo are not 0, whatever
    the resolution. *)
Theorem unknown_mode_gives_zero
    (track_data : list MidiEvent) (frame fps : Z) (mode : string)
    (tpb tempo : Z) (decay_rate : Q) :
  ¬ known_mode mode →
  track_data = [] ∨ (fps ≠ 0 ∧ tempo ≠ 0) →
  get_track_strength_at_frame track_data frame fps mode tpb tempo decay_rate
  = Ok 0%Q.
Proof.
  intros Hmode Hcase. unfold known_mode in Hmode.
  unfold get_track_strength_at_frame.
  destruct track_data as [|e0 rest]; [done|].
  destruct Hcase as [?|[Hfps Htempo]]; [done|].
  rewrite midi_time_of_frame_ok by done. simpl.
  unfold strength_at_midi_time. destruct (active_notes _ _); [done|].
  destruct (String.eqb_spec mode "Velocity"); [tauto|].
  destruct (String.eqb_spec mode "Pulse"); [tauto|].
  destruct (String.eqb_spec mode "Hold"); [tauto|].
  destruct (String.eqb_spec mode "Toggle"); [tauto|]. done.
Qed.

Lemma unknown_mode_gives_zero_witness :
  get_track_strength_at_frame scenario_track 15 30 "velocity" 480 500000 2
  = Ok 0%Q.
Proof.
  apply (unknown_mode_gives_zero scenario_track 15 30 "velocity" 480 500000 2).
  - intros [H|[H|[H|H]]]; discriminate H.
  - right. split; lia.
Defined.

(** X12.  Division by zero.  An empty track gives 0.0 before anything is
    divided, even at fps 0.  On a track with events, fps 0 or tempo 0
    raises [ZeroDivisionError] in every mode.  With fps and tempo other
    than 0 and a resolution of 0, Pulse raises [ZeroDivisionError] as soon
    as a note is active. *)
Theorem division_by_zero_cases
    (track_data : list MidiEvent) (frame fps : Z) (mode : string)
    (tpb tempo : Z) (decay_rate : Q) :
  (track_data = [] →
   get_track_strength_at_frame track_data frame fps mode tpb tempo decay_rate
   = Ok 0%Q)
  ∧ (track_data ≠ [] → fps = 0 ∨ tempo = 0 →
     get_track_strength_at_frame track_data frame fps mode tpb tempo decay_rate
     = Raise ZeroDivisionError)
  ∧ (fps ≠ 0 → tempo ≠ 0 → tpb = 0 →
     ∀ tick, midi_time_of_frame frame fps tempo tpb = Ok tick →
             active_notes track_data tick ≠ [] →
             get_track_strength_at_frame track_data frame fps "Pulse" tpb tempo
                                         decay_rate
             = Raise ZeroDivisionError).
Proof.
  split_and!.
  - by intros ->.
  - intros Hne Hzero. unfold get_track_strength_at_frame.
    destruct track_data as [|e0 rest]; [done|].
    unfold midi_time_of_frame.
    destruct (decide (fps = 0)) as [->|Hfps]; [done|].
    destruct Hzero as [? | ->]; [done|].
    by rewrite py_truediv_inject_Z.
  - intros Hfps Htempo -> tick Htick Hactive.
    unfold get_track_strength_at_frame.
    destruct track_data as [|e0 rest] eqn:E; [done|].
    rewrite Htick. simpl. unfold strength_at_midi_time.
    by destruct (active_notes (e0 :: rest) tick).
Qed.

Lemma division_by_zero_cases_witness :
  get_track_strength_at_frame [] 15 0 "Hold" 480 500000 2 = Ok 0%Q
  ∧ get_track_strength_at_frame scenario_track 15 0 "Hold" 480 500000 2
    = Raise ZeroDivisionError
  ∧ get_track_strength_at_frame scenario_track 15 30 "Pulse" 0 500000 2
    = Raise ZeroDivisionError.
Proof.
  split_and!.
  - by apply (division_by_zero_cases [] 15 0 "Hold" 480 500000 2).
  - apply (division_by_zero_cases scenario_track 15 0 "Hold" 480 500000 2);
      [done|by left].
  - destruct (division_by_zero_cases scenario_track 15 30 "Pulse" 0 500000 2)
      as (_ & _ & Hpulse).
    apply (Hpulse ltac:(lia) ltac:(lia) eq_refl (15000000000 * 0 # 15000000)%Q).
    + reflexivity.
    + by vm_compute.
Defined.

(** X13.  A note is active over an interval of tick positions: if the
    NoteOn at index [i] is active at two tick positions, it is active at
    every tick position between them. *)
Theorem active_between
    (track_data : list MidiEvent) (t1 t2 t3 : Q) (i : nat) (e : MidiEvent) :
  (t1 <= t2)%Q → (t2 <= t3)%Q →
  (i, e) ∈ active_entries track_data t1 →
  (i, e) ∈ active_entries track_data t3 →
  (i, e) ∈ active_entries track_data t2.
Proof.
  intros H12 H23. rewrite !elem_of_active_entries.
  intros [Hi H1] [_ H3]. split; [done|].
  unfold is_active in *.
  apply andb_true_iff in H1 as [H1 _]. apply andb_true_iff in H1 as [Hs1 Hon].
  apply andb_true_iff in H3 as [_ Hoff3].
  apply Qleb_true in Hs1.
  rewrite Hon, andb_true_r, andb_true_iff. split.
  - apply Qleb_true. lra.
  - destruct (note_off_time track_data i e) as [off|]; [|done].
    apply Qltb_true in Hoff3. apply Qltb_true. lra.
Qed.

Lemma active_between_witness :
  (0%nat, mkEvent 0 note_on 60 100) ∈ active_entries scenario_track 480.
Proof.
  apply (active_between scenario_track 0 480 959 0%nat
           (mkEvent 0 note_on 60 100)).
  - by vm_compute.
  - by vm_compute.
  - apply elem_of_active_entries. by vm_compute.
  - apply elem_of_active_entries. by vm_compute.
Defined.

Lemma filter_sublist {A} (f : A → bool) (l : list A) :
  sublist (List.filter f l) l.
Proof.
  induction l as [|x l IH]; simpl; [constructor|].
  destruct (f x); by constructor.
Qed.

Lemma filtered_entries_sublist (midi_time : Q)
    (P : nat * MidiEvent → bool) (f : nat → MidiEvent → nat * MidiEvent)
    (l : list MidiEvent) :
  (∀ i x, (f i x).2 = x) →
  (∀ ie, P ie = true → started_note_on midi_time ie.2 = true) →
  sublist (List.filter P (imap f l)).*2
          (List.filter (started_note_on midi_time) l).
Proof.
  intros Hf HP. revert f Hf. induction l as [|x l IH]; intros f Hf; simpl.
  { constructor. }
  destruct (P (f 0%nat x)) eqn:EP.
  - pose proof (HP _ EP) as Hs. rewrite Hf in Hs. rewrite Hs. simpl.
    rewrite Hf. constructor. apply IH. intros i y. apply Hf.
  - destruct (started_note_on midi_time x).
    + constructor. apply IH. intros i y. apply Hf.
    + apply IH. intros i y. apply Hf.
Qed.

(** X14.  The active notes are NoteOns of positive velocity that have
    started, in the order of the track, each event at most once: they are
    a sub-list of the events the Toggle count counts, so there are never
    more active notes than that count. *)
Theorem active_notes_among_started (track_data : list MidiEvent) (midi_time : Q) :
  sublist (active_notes track_data midi_time)
          (List.filter (started_note_on midi_time) track_data)
  ∧ sublist (active_notes track_data midi_time) track_data
  ∧ (length (active_notes track_data midi_time)
     ≤ note_on_count track_data midi_time)%nat.
Proof.
  assert (sublist (active_notes track_data midi_time)
                  (List.filter (started_note_on midi_time) track_data)) as Hsub.
  { unfold active_notes, active_entries. apply filtered_entries_sublist; [done|].
    intros [i e] Hact. simpl in *. unfold is_active in Hact.
    apply andb_true_iff in Hact as [Hact _].
    apply andb_true_iff in Hact as [Ht Hon].
    apply andb_true_iff in Hon as [Hty Hv].
    unfold started_note_on. by rewrite Ht, Hty, Hv. }
  split; [done|]. split.
  - etrans; [exact Hsub|apply filter_sublist].
  - unfold note_on_count. by apply sublist_length in Hsub.
Qed.

(** ** The session, further *)

Lemma mix_with_midi_result {HostStore Locals : Type}
    (w : World) (c : Call HostStore Locals) (locals : Locals)
    (st : Session * HostStore) :
  let s1 := load_midi w (requested_path c) (frame_number c) st.1 in
  match midi_data s1 with
  | None => mix_with_midi w c locals st
            = ((s1, st.2), Ok (mkOutput locals 120%Q (track_states st.1)))
  | Some d =>
      ∀ slots, slots = seq 0 4 →
        mix_with_midi w c locals st
        = match track_loop d c slots locals (s1, st.2) with
          | (st', Ok locals') =>
              (st', Ok (mkOutput locals' (bpm d) (track_states st'.1)))
          | (st', Raise e) => (st', Raise e)
          end
  end.
Proof.
  intros s1. destruct (midi_data s1) as [d|] eqn:Ed.
  - intros slots ->. unfold mix_with_midi. fold (requested_path c). fold s1.
    cbv zeta. unfold reported_bpm. by rewrite Ed.
  - by apply mix_with_midi_no_data.
Qed.

Lemma track_step_current_frame {HostStore Locals : Type}
    (d : ParsedMidi) (c : Call HostStore Locals) (i : nat) (locals : Locals)
    (st : Session * HostStore) :
  current_frame (track_step d c i locals st).1.1 = current_frame st.1.
Proof.
  unfold track_step. destruct (tracks d !! i); [|done].
  destruct (get_track_strength_at_frame _ _ _ _ _ _ _); [|done].
  destruct (set_track_state _ _ _) as [s'|e] eqn:Es; [|done].
  apply set_track_state_spec in Es as (_ & Hf & _).
  by destruct (connect c i _ locals st.2).
Qed.

Lemma track_loop_current_frame {HostStore Locals : Type}
    (d : ParsedMidi) (c : Call HostStore Locals) (slots : list nat)
    (locals : Locals) (st : Session * HostStore) :
  current_frame (track_loop d c slots locals st).1.1 = current_frame st.1.
Proof.
  revert locals st. induction slots as [|i rest IH]; intros locals st; [done|].
  simpl. unfold mbind'.
  pose proof (track_step_current_frame d c i locals st) as Hstep.
  destruct (track_step d c i locals st) as [st1 [locals1|e]]; simpl in *.
  - by rewrite IH.
  - done.
Qed.

(** X15.  Every call, returning or raising, leaves the frame number it was
    given in [current_frame] and keeps the number of strength slots; a
    session made by [__init__] has four. *)
Theorem call_records_frame_and_keeps_slots {HostStore Locals : Type}
    (w : World) (c : Call HostStore Locals) (locals : Locals)
    (st : Session * HostStore) :
  current_frame (session_after w c locals st) = frame_number c
  ∧ length (track_states (session_after w c locals st))
    = length (track_states st.1)
  ∧ length (track_states init_session) = 4%nat.
Proof.
  split; [|split; [apply mix_with_midi_frame|done]].
  pose proof (mix_with_midi_result w c locals st) as Hres. cbv zeta in Hres.
  unfold session_after.
  destruct (midi_data (load_midi w (requested_path c) (frame_number c) st.1))
    as [d|].
  - rewrite (Hres _ eq_refl).
    pose proof (track_loop_current_frame d c (seq 0 4) locals
                  (load_midi w (requested_path c) (frame_number c) st.1, st.2))
      as Hloop.
    destruct (track_loop d c (seq 0 4) locals _) as [st' [l'|e]];
      simpl in *; rewrite Hloop; apply load_midi_current_frame.
  - rewrite Hres. simpl. apply load_midi_current_frame.
Qed.

Lemma track_step_value {HostStore Locals : Type}
    (d : ParsedMidi) (c : Call HostStore Locals) (i : nat) (locals locals' : Locals)
    (st st' : Session * HostStore) (track_data : list MidiEvent) :
  track_step d c i locals st = (st', Ok locals') →
  tracks d !! i = Some track_data →
  ∃ s, get_track_strength_at_frame track_data (frame_number c) (fps c)
         (trigger_mode c) (ticks_per_beat d) (tempo d) (decay_rate c) = Ok s
       ∧ track_states st'.1 !! i = Some (s * mix_strength c)%Q.
Proof.
  intros Hstep Ei. unfold track_step in Hstep. rewrite Ei in Hstep.
  destruct (get_track_strength_at_frame _ _ _ _ _ _ _) as [s|e]; [|done].
  destruct (set_track_state _ _ _) as [s'|e] eqn:Es; [|done].
  apply set_track_state_spec in Es as (_ & _ & Hts & Hlen).
  destruct (connect c i _ locals st.2) as [h' r].
  injection Hstep as <- ->. exists s. split; [done|]. simpl.
  rewrite Hts. by apply list_lookup_insert_eq.
Qed.

Lemma track_loop_value {HostStore Locals : Type}
    (d : ParsedMidi) (c : Call HostStore Locals) (slots : list nat)
    (locals locals' : Locals) (st st' : Session * HostStore)
    (i : nat) (track_data : list MidiEvent) :
  track_loop d c slots locals st = (st', Ok locals') →
  i ∈ slots → tracks d !! i = Some track_data →
  ∃ s, get_track_strength_at_frame track_data (frame_number c) (fps c)
         (trigger_mode c) (ticks_per_beat d) (tempo d) (decay_rate c) = Ok s
       ∧ track_states st'.1 !! i = Some (s * mix_strength c)%Q.
Proof.
  revert locals st. induction slots as [|i0 rest IH]; intros locals st Hloop Hin Ei.
  { by apply elem_of_nil in Hin. }
  simpl in Hloop. unfold mbind' in Hloop.
  destruct (track_step d c i0 locals st) as [st1 [locals1|e]] eqn:E; [|done].
  destruct (decide (i ∈ rest)) as [Hrest|Hrest]; [by eapply IH|].
  apply elem_of_cons in Hin as [->|?]; [|done].
  pose proof (track_loop_frame d c rest locals1 st1) as (_ & _ & Hkeep).
  rewrite Hloop in Hkeep. simpl in Hkeep. rewrite Hkeep by by left.
  by eapply track_step_value.
Qed.

(** X16.  After a call that returns, each of the four slots that has a
    parsed track holds the strength of that track at the frame, as
    [get_track_strength_at_frame] gives it, times [mix_strength]; the
    values returned for display are the stored ones, and the BPM is the
    parsed file's. *)
Theorem slot_is_strength_times_mix {HostStore Locals : Type}
    (w : World) (c : Call HostStore Locals) (locals : Locals)
    (st : Session * HostStore) (d : ParsedMidi) (o : Output Locals)
    (i : nat) (track_data : list MidiEvent) :
  outcome w c locals st = Ok o →
  midi_data (session_after w c locals st) = Some d →
  (i < 4)%nat →
  tracks d !! i = Some track_data →
  ∃ s, get_track_strength_at_frame track_data (frame_number c) (fps c)
         (trigger_mode c) (ticks_per_beat d) (tempo d) (decay_rate c) = Ok s
       ∧ track_states (session_after w c locals st) !! i
         = Some (s * mix_strength c)%Q
       ∧ out_mix_values o = track_states (session_after w c locals st)
       ∧ out_bpm o = bpm d.
Proof.
  intros Hout Hd Hi Ei.
  pose proof (mix_with_midi_frame w c locals st) as ((Hdata & _) & _).
  cbv zeta in Hdata. rewrite Hdata in Hd.
  pose proof (mix_with_midi_result w c locals st) as Hres. cbv zeta in Hres.
  rewrite Hd in Hres. unfold outcome, session_after in *.
  rewrite (Hres _ eq_refl) in Hout |- *.
  assert (i ∈ seq 0 4) as Hin by (rewrite elem_of_seq; lia).
  remember (seq 0 4) as slots eqn:Hslots. clear Hslots.
  destruct (track_loop d c slots locals _) as [st' [l'|e]] eqn:Eloop; [|done].
  simpl in Hout |- *. injection Hout as <-. simpl.
  destruct (track_loop_value d c slots locals l' _ st' i track_data Eloop Hin Ei)
    as (s & Hs & Hslot).
  exists s. by split_and!.
Qed.

Lemma slot_is_strength_times_mix_witness :
  ∃ s, get_track_strength_at_frame scenario_track 15 30 "Velocity" 480 500000 2
       = Ok s
       ∧ track_states
           (session_after demo_world
              (node_call 15 30 "Velocity" (3 # 2) 2 (Some "one.mid") no_inputs)
              demo_locals fresh_state) !! 0%nat
         = Some (s * (3 # 2))%Q.
Proof.
  destruct (slot_is_strength_times_mix demo_world
              (node_call 15 30 "Velocity" (3 # 2) 2 (Some "one.mid") no_inputs)
              demo_locals fresh_state one_track_parsed
              (mkOutput demo_locals (60000000 # 500000)
                        [(100 # 127) * (3 # 2); 0; 0; 0]%Q)
              0%nat scenario_track)
    as (s & Hs & Hslot & _).
  - vm_compute. reflexivity.
  - vm_compute. reflexivity.
  - lia.
  - reflexivity.
  - exists s. split; [exact Hs|exact Hslot].
Defined.





Lemma outcome_fields {HostStore Locals : Type}
    (w : World) (c : Call HostStore Locals) (locals : Locals)
    (st : Session * HostStore) (o : Output Locals) :
  outcome w c locals st = Ok o →
  out_mix_values o = track_states (session_after w c locals st)
  ∧ out_bpm o = reported_bpm (session_after w c locals st).
Proof.
  intros Hout.
  pose proof (mix_with_midi_frame w c locals st) as ((Hd & _) & _).
  cbv zeta in Hd.
  pose proof (mix_with_midi_result w c locals st) as Hres. cbv zeta in Hres.
  unfold reported_bpm. rewrite Hd. unfold outcome, session_after in *.
  destruct (midi_data (load_midi w (requested_path c) (frame_number c) st.1))
    as [d|].
  - rewrite (Hres _ eq_refl) in Hout |- *.
    destruct (track_loop d c (seq 0 4) locals _) as [st' [l'|e]]; [|done].
    simpl in *. by injection Hout as <-.
  - rewrite Hres in Hout |- *. simpl in *. injection Hout as <-. simpl.
    by rewrite load_midi_track_states.
Qed.

Lemma call_slot_value {HostStore Locals : Type}
    (w : World) (c : Call HostStore Locals) (locals : Locals)
    (st : Session * HostStore) (d : ParsedMidi) (o : Output Locals)
    (i : nat) (track_data : list MidiEvent) :
  outcome w c locals st = Ok o →
  midi_data (session_after w c locals st) = Some d →
  (i < 4)%nat →
  tracks d !! i = Some track_data →
  ∃ s, get_track_strength_at_frame track_data (frame_number c) (fps c)
         (trigger_mode c) (ticks_per_beat d) (tempo d) (decay_rate c) = Ok s
       ∧ track_states (session_after w c locals st) !! i
         = Some (s * mix_strength c)%Q.
Proof.
  intros Hout Hd Hi Ei.
  pose proof (mix_with_midi_frame w c locals st) as ((Hdata & _) & _).
  cbv zeta in Hdata. rewrite Hdata in Hd.
  pose proof (mix_with_midi_result w c locals st) as Hres. cbv zeta in Hres.
  rewrite Hd in Hres. unfold outcome, session_after in *.
  rewrite (Hres _ eq_refl) in Hout |- *.
  assert (i ∈ seq 0 4) as Hin by (rewrite elem_of_seq; lia).
  remember (seq 0 4) as slots eqn:Hslots. clear Hslots.
  destruct (track_loop d c slots locals _) as [st' [l'|e]] eqn:Eloop; [|done].
  simpl. by eapply track_loop_value.
Qed.

Lemma repeated_call_same_cache {HostStore Locals : Type}
    (w1 w2 : World) (c : Call HostStore Locals) (l1 l2 : Locals)
    (st : Session * HostStore) :
  same_cache (session_after w1 c l1 st)
             (session_after w2 c l2 (mix_with_midi w1 c l1 st).1).
Proof.
  destruct (decide (requested_path c = "")) as [Hp|Hp].
  - pose proof (mix_with_midi_frame w2 c l2 (mix_with_midi w1 c l1 st).1)
      as (Hc & _ & _).
    cbv zeta in Hc. by rewrite Hp, load_midi_empty in Hc.
  - apply session_after_cached.
    by apply (session_after_path_cached w1 c l1 st).
Qed.

(** X18.  Asking for the same frame again changes nothing: when a call
    returns and the same call (same arguments, whatever the files have
    become) is made again and returns, it returns the same strengths and
    the same BPM, and the cache is as the first call left it. *)
Theorem repeated_call_same_strengths {HostStore Locals : Type}
    (w1 w2 : World) (c : Call HostStore Locals) (l1 l2 : Locals)
    (st : Session * HostStore) (o1 o2 : Output Locals) :
  outcome w1 c l1 st = Ok o1 →
  outcome w2 c l2 (mix_with_midi w1 c l1 st).1 = Ok o2 →
  out_mix_values o2 = out_mix_values o1
  ∧ out_bpm o2 = out_bpm o1
  ∧ same_cache (session_after w1 c l1 st)
               (session_after w2 c l2 (mix_with_midi w1 c l1 st).1).
Proof.
  intros H1 H2.
  pose proof (repeated_call_same_cache w1 w2 c l1 l2 st) as Hcache.
  destruct (outcome_fields _ _ _ _ _ H1) as [-> ->].
  destruct (outcome_fields _ _ _ _ _ H2) as [-> ->].
  destruct Hcache as (Hd & Hc & Hl).
  split; [|split; [unfold reported_bpm; by rewrite Hd|done]].
  set (st1 := (mix_with_midi w1 c l1 st).1) in *.
  pose proof (mix_with_midi_frame w2 c l2 st1) as ((Hd2 & _) & Hlen & Hkeep).
  cbv zeta in Hd2, Hlen, Hkeep.
  change st1.1 with (session_after w1 c l1 st) in Hd2, Hlen, Hkeep.
  apply list_eq. intros j.
  destruct (midi_data (session_after w1 c l1 st)) as [d|] eqn:Ed1.
  - rewrite Hd in Hd2.
    destruct (decide (j < 4)%nat) as [Hj|Hj].
    + destruct (tracks d !! j) as [track_data|] eqn:Ej.
      * destruct (call_slot_value w1 c l1 st d o1 j track_data H1 Ed1 Hj Ej)
          as (s & Hs & Hv1).
        destruct (call_slot_value w2 c l2 st1 d o2 j track_data H2)
          as (s' & Hs' & Hv2); [by rewrite Hd|done|done|].
        rewrite Hv1, Hv2. rewrite Hs in Hs'. by injection Hs' as <-.
      * apply Hkeep. intros d' Hd'. right. congruence.
    + apply Hkeep. intros d' Hd'. left. lia.
  - apply Hkeep. intros d' Hd'. rewrite Hd in Hd2. congruence.
Qed.

Lemma repeated_call_same_strengths_witness :
  out_mix_values
    (mkOutput demo_locals (60000000 # 600000) [1%Q; 1%Q; 0%Q; 0%Q])
  = [1%Q; 1%Q; 0%Q; 0%Q]
  ∧ same_cache state_after_two_tracks.1
      (session_after demo_world
         (node_call 15 30 "Hold" 1 2 (Some "two.mid") no_inputs)
         demo_locals state_after_two_tracks).
Proof.
  destruct (repeated_call_same_strengths demo_world demo_world
              (node_call 15 30 "Hold" 1 2 (Some "two.mid") no_inputs)
              demo_locals demo_locals fresh_state
              (mkOutput demo_locals (60000000 # 600000) [1%Q; 1%Q; 0%Q; 0%Q])
              (mkOutput demo_locals (60000000 # 600000) [1%Q; 1%Q; 0%Q; 0%Q]))
    as (Hmix & _ & Hcache).
  - vm_compute. reflexivity.
  - vm_compute. reflexivity.
  - split; [exact Hmix|exact Hcache].
Defined.

(** ** The node's optional inputs *)

Lemma track_loop_locals_invariant {HostStore Locals : Type}
    (P : Locals → Prop) (d : ParsedMidi) (c : Call HostStore Locals)
    (slots : list nat) (locals locals' : Locals) (st st' : Session * HostStore) :
  (∀ i x l h h' l', connect c i x l h = (h', Ok l') → P l → P l') →
  track_loop d c slots locals st = (st', Ok locals') →
  P locals → P locals'.
Proof.
  intros Hconnect. revert locals st.
  induction slots as [|i rest IH]; intros locals st Hloop HP; simpl in Hloop.
  { unfold mret' in Hloop. by injection Hloop as _ <-. }
  unfold mbind' in Hloop.
  destruct (track_step d c i locals st) as [st1 [locals1|e]] eqn:E; [|done].
  eapply IH; [exact Hloop|].
  unfold track_step in E. destruct (tracks d !! i).
  2:{ by injection E as _ <-. }
  destruct (get_track_strength_at_frame _ _ _ _ _ _ _) as [s|]; [|done].
  destruct (set_track_state _ _ _); [|done].
  destruct (connect c i _ locals st.2) as [h' r] eqn:Ec.
  injection E as _ ->. by eapply Hconnect.
Qed.

Lemma node_connect_model (kwargs : nat → SlotInputs) (i : nat) (x : Q)
    (locals locals' : nat * val * val) (h h' : Heap) :
  node_connect kwargs i x locals h = (h', Ok locals') →
  locals'.1.1 = locals.1.1.
Proof.
  destruct locals as [[m p] n]. unfold node_connect, apply_ipadapter_to_model.
  assert (match ipadapter (kwargs i) with
          | Some _ => match image (kwargs i) with
                      | Some _ => m
                      | None => m
                      end
          | None => m
          end = m) as ->
    by (destruct (ipadapter (kwargs i)), (image (kwargs i)); done).
  destruct (control_net (kwargs i)), (cn_image (kwargs i));
    unfold mbind', mret'; try (by intros [= _ <-]).
  destruct (apply_controlnet_to_conditioning _ _ _ _ _ _ h) as [h1 [pn|e]];
    [|done].
  by intros [= _ <-].
Qed.

(** X19.  The node never changes the model: whatever IPAdapters, images and
    weights are connected, a call that returns gives back the model handle
    it was given. *)
Theorem node_returns_model_unchanged
    (w : World) (frame fps : Z) (mode : string) (mix decay : Q)
    (path : option string) (kwargs : nat → SlotInputs)
    (model : nat) (positive negative : val) (st : Session * Heap)
    (o : Output (nat * val * val)) :
  outcome w (node_call frame fps mode mix decay path kwargs)
          (model, positive, negative) st = Ok o →
  (out_locals o).1.1 = model.
Proof.
  intros Hout.
  pose proof (mix_with_midi_result w
                (node_call frame fps mode mix decay path kwargs)
                (model, positive, negative) st) as Hres.
  cbv zeta in Hres. unfold outcome in Hout.
  destruct (midi_data (load_midi w _ _ st.1)) as [d|].
  - rewrite (Hres _ eq_refl) in Hout.
    destruct (track_loop d _ (seq 0 4) _ _) as [st' [l'|e]] eqn:Eloop; [|done].
    simpl in Hout. injection Hout as <-. simpl.
    assert (∀ i x l h h' l0,
              connect (node_call frame fps mode mix decay path kwargs) i x l h
              = (h', Ok l0) → l.1.1 = model → l0.1.1 = model) as Hinv.
    { intros i x l h h' l0 Hc Hl. simpl in Hc.
      apply node_connect_model in Hc. congruence. }
    apply (track_loop_locals_invariant (fun l => l.1.1 = model) d _ _ _ _ _ _
             Hinv Eloop eq_refl).
  - rewrite Hres in Hout. simpl in Hout. by injection Hout as <-.
Qed.

Lemma node_returns_model_unchanged_witness :
  (out_locals
     (mkOutput (7%nat, VRef 10%nat, VRef 14%nat) (60000000 # 500000)
               [1%Q; 0%Q; 0%Q; 0%Q])).1.1 = 7%nat.
Proof.
  apply (node_returns_model_unchanged demo_world 15 30 "Hold" 1 2
           (Some "one.mid") adapters_on_slot_0 7%nat (VRef 0%nat) (VRef 5%nat)
           (init_session, demo_heap)).
  vm_compute. reflexivity.
Defined.

Lemma node_connect_silent (kwargs : nat → SlotInputs) (i : nat) (x : Q)
    (locals : nat * val * val) (h : Heap) :
  (x <= 0)%Q → node_connect kwargs i x locals h = (h, Ok locals).
Proof.
  intros Hx. apply Qltb_false in Hx.
  destruct locals as [[m p] n]. unfold node_connect, apply_ipadapter_to_model.
  assert (match ipadapter (kwargs i) with
          | Some _ => match image (kwargs i) with
                      | Some _ => m
                      | None => m
                      end
          | None => m
          end = m) as ->
    by (destruct (ipadapter (kwargs i)), (image (kwargs i)); done).
  destruct (control_net (kwargs i)) as [cn|], (cn_image (kwargs i)) as [img|];
    try done.
  unfold mbind', apply_controlnet_to_conditioning.
  destruct cn, img; try done. by rewrite Hx, andb_false_r.
Qed.

Lemma track_loop_quiet {HostStore Locals : Type}
    (d : ParsedMidi) (c : Call HostStore Locals) (slots : list nat)
    (locals : Locals) (st : Session * HostStore) :
  (∀ i track_data s l h,
     tracks d !! i = Some track_data →
     get_track_strength_at_frame track_data (frame_number c) (fps c)
       (trigger_mode c) (ticks_per_beat d) (tempo d) (decay_rate c) = Ok s →
     connect c i (s * mix_strength c)%Q l h = (h, Ok l)) →
  (track_loop d c slots locals st).1.2 = st.2
  ∧ ∀ locals', (track_loop d c slots locals st).2 = Ok locals' → locals' = locals.
Proof.
  intros Hquiet. revert st. induction slots as [|i rest IH]; intros st; simpl.
  { split; [done|]. by intros l' [= <-]. }
  unfold mbind'.
  assert ((track_step d c i locals st).1.2 = st.2
          ∧ ∀ l', (track_step d c i locals st).2 = Ok l' → l' = locals)
    as [Hheap Hlocals].
  { unfold track_step. destruct (tracks d !! i) as [track_data|] eqn:Ei.
    2:{ split; [done|]. by intros l' [= <-]. }
    destruct (get_track_strength_at_frame _ _ _ _ _ _ _) as [s|] eqn:Es;
      [|done].
    destruct (set_track_state _ _ _); [|done].
    rewrite (Hquiet i track_data s locals st.2 Ei Es). simpl.
    split; [done|]. by intros l' [= <-]. }
  destruct (track_step d c i locals st) as [st1 [locals1|e]]; simpl in *.
  - rewrite (Hlocals locals1 eq_refl). destruct (IH st1) as [Hh Hl].
    split; [congruence|done].
  - done.
Qed.

(** X20.  Silent tracks leave the conditioning alone: when every parsed
    track's strength times [mix_strength] is 0 or less at this frame (no
    note active, or [mix_strength] 0), the node allocates nothing, changes
    nothing in the store and, if it returns, returns the model and the
    conditioning it was given, whatever ControlNets are connected. *)
Theorem silent_tracks_leave_conditioning
    (w : World) (frame fps : Z) (mode : string) (mix decay : Q)
    (path : option string) (kwargs : nat → SlotInputs)
    (locals : nat * val * val) (st : Session * Heap) :
  let c := node_call frame fps mode mix decay path kwargs in
  (∀ d i track_data s,
     midi_data (session_after w c locals st) = Some d →
     tracks d !! i = Some track_data →
     get_track_strength_at_frame track_data frame fps mode (ticks_per_beat d)
                                 (tempo d) decay = Ok s →
     (s * mix <= 0)%Q) →
  (mix_with_midi w c locals st).1.2 = st.2
  ∧ ∀ o, outcome w c locals st = Ok o → out_locals o = locals.
Proof.
  intros c Hsilent.
  pose proof (mix_with_midi_frame w c locals st) as ((Hd & _) & _).
  cbv zeta in Hd. rewrite Hd in Hsilent.
  pose proof (mix_with_midi_result w c locals st) as Hres. cbv zeta in Hres.
  unfold outcome.
  destruct (midi_data (load_midi w (requested_path c) (frame_number c) st.1))
    as [d|].
  - rewrite (Hres _ eq_refl).
    destruct (track_loop_quiet d c (seq 0 4) locals
                (load_midi w (requested_path c) (frame_number c) st.1, st.2))
      as [Hheap Hlocals].
    { intros i track_data s l h Ei Es. simpl.
      apply node_connect_silent. by eapply (Hsilent d i track_data s). }
    destruct (track_loop d c (seq 0 4) locals _) as [st' [l'|e]];
      simpl in *; [|done].
    split; [done|]. intros o [= <-]. simpl. by apply Hlocals.
  - rewrite Hres. simpl. split; [done|]. by intros o [= <-].
Qed.

Lemma silent_tracks_leave_conditioning_witness :
  (mix_with_midi demo_world
     (node_call 60 30 "Hold" 1 2 (Some "one.mid") adapters_on_slot_0)
     (7%nat, VRef 0%nat, VRef 5%nat) (init_session, demo_heap)).1.2 = demo_heap
  ∧ ∀ o, outcome demo_world
           (node_call 60 30 "Hold" 1 2 (Some "one.mid") adapters_on_slot_0)
           (7%nat, VRef 0%nat, VRef 5%nat) (init_session, demo_heap) = Ok o →
         out_locals o = (7%nat, VRef 0%nat, VRef 5%nat).
Proof.
  apply (silent_tracks_leave_conditioning demo_world 60 30 "Hold" 1 2
           (Some "one.mid") adapters_on_slot_0
           (7%nat, VRef 0%nat, VRef 5%nat) (init_session, demo_heap)).
  intros d i track_data s Hd Hi Hs.
  vm_compute in Hd. injection Hd as <-.
  destruct i as [|i]; [|by destruct i].
  simpl in Hi. injection Hi as <-.
  vm_compute in Hs. injection Hs as <-. by vm_compute.
Defined.

(** ** The control hint *)

Lemma removelast_last (l : list nat) (x : nat) :
  last l = Some x → l = removelast l ++ [x].
Proof.
  induction l as [|a l IH]; [done|].
  destruct l as [|b l]; [by intros [= ->]|].
  intros Hlast. change (a :: b :: l = a :: (removelast (b :: l) ++ [x])).
  f_equal. by apply IH.
Qed.

(** X21.  The control hint shares the image's storage and has the image's
    dimensions reordered, the last one moved to position 1: [b; h; w; c]
    becomes [b; c; h; w], and an image without batch dimension [h; w; c]
    becomes [1; c; h; w].  Building it raises only for an image without
    dimensions. *)
Theorem control_hint_of_shape (image : Tensor) :
  (control_hint_of image = Raise IndexError ↔ shape image = [])
  ∧ (∀ hint, control_hint_of image = Ok hint →
       storage hint = storage image
       ∧ shape hint ≡ₚ batched_shape image
       ∧ shape hint !! 1%nat = last (batched_shape image)
       ∧ (∀ b h w c, shape image = [b; h; w; c] → shape hint = [b; c; h; w])
       ∧ (∀ h w c, shape image = [h; w; c] → shape hint = [1; c; h; w]%nat)).
Proof.
  unfold control_hint_of. fold (batched_shape image).
  assert (batched_shape image = [] → False) as Hnonempty.
  { unfold batched_shape. destruct (Nat.eqb_spec (length (shape image)) 4);
      [|done]. by destruct (shape image). }
  assert (shape image = [] ↔ ∃ s0, batched_shape image = [s0]) as Hscalar.
  { unfold batched_shape. destruct (Nat.eqb_spec (length (shape image)) 4) as [E|E].
    - destruct (shape image) as [|a [|b [|c [|d [|]]]]]; try done.
      split; [done|]. by intros [s0 ?].
    - split; [intros ->; by exists 1%nat|]. intros [s0 [= _ ->]]. done. }
  assert (∀ b h w c, shape image = [b; h; w; c] →
            batched_shape image = [b; h; w; c]) as H4
    by (intros b h w c E; unfold batched_shape; by rewrite E).
  assert (∀ h w c, shape image = [h; w; c] →
            batched_shape image = [1; h; w; c]%nat) as H3
    by (intros h w c E; unfold batched_shape; by rewrite E).
  destruct (batched_shape image) as [|s0 rest] eqn:Eb; [done|].
  unfold movedim_last_to_1.
  destruct (last rest) as [channels|] eqn:Elast; simpl.
  - split.
    + split; [done|]. intros Hs. apply Hscalar in Hs as [s0' [= _ ->]]. done.
    + intros hint [= <-]. simpl.
      pose proof (removelast_last rest channels Elast) as Hrest.
      split; [done|]. split; [|split; [|split]].
      * rewrite Hrest at 2. by rewrite Permutation_app_comm.
      * simpl. destruct rest; [done|]. by rewrite last_cons, Elast.
      * intros b h w c E. pose proof (H4 b h w c E) as Hb.
        try rewrite Eb in Hb. injection Hb as -> ->.
        simpl in *. by injection Elast as <-.
      * intros h w c E. pose proof (H3 h w c E) as Hb.
        try rewrite Eb in Hb. injection Hb as -> ->.
        simpl in *. by injection Elast as <-.
  - split; [|done]. split; [|done]. intros _. apply Hscalar.
    exists s0. destruct rest; [done|].
    by rewrite last_cons in Elast; destruct (last rest).
Qed.

(** ** The status block *)

Lemma py_int_nonneg (x : Q) : (0 <= x)%Q → py_int x = Qfloor x ∧ 0 ≤ py_int x.
Proof.
  destruct x as [n d]. unfold Qle, py_int, Qfloor. simpl. intros Hn.
  rewrite Z.quot_div_nonneg by lia. split; [done|].
  apply Z.div_pos; lia.
Qed.

Lemma py_index_in_range {A} (xs : list A) (i : Z) :
  0 ≤ i < Z.of_nat (length xs) →
  ∃ x, py_index xs i = Ok x ∧ xs !! Z.to_nat i = Some x.
Proof.
  intros Hi. unfold py_index.
  destruct (i <? 0) eqn:E0; [apply Z.ltb_lt in E0; lia|].
  rewrite E0. simpl.
  destruct (Z.of_nat (length xs) <=? i) eqn:E1; [apply Z.leb_le in E1; lia|].
  destruct (lookup_lt_is_Some_2 xs (Z.to_nat i)) as [x Hx]; [lia|].
  rewrite Hx. eauto.
Qed.

(** X22.  A strength that is not negative always gets a bar, the one of
    level min(floor(5 * strength), 5): the empty bar below 0.2, and the
    full bar from 1.0 on, also for the strengths above 1 that a
    [mix_strength] above 1 produces. *)
Theorem bar_of_state_level (state : Q) :
  (0 <= state)%Q →
  ∃ bar,
    bar_of_state state = Ok bar
    ∧ bars !! Z.to_nat (Z.min (Qfloor (state * 5)) 5) = Some bar
    ∧ ((state < 1 # 5)%Q → bars !! 0%nat = Some bar)
    ∧ ((1 <= state)%Q → bars !! 5%nat = Some bar).
Proof.
  intros Hstate. unfold bar_of_state. cbv zeta.
  assert (0 <= state * 5)%Q as H5 by lra.
  destruct (py_int_nonneg _ H5) as [Hint Hpos]. rewrite Hint in *.
  destruct (py_index_in_range bars (Z.min (Qfloor (state * 5)) 5))
    as (bar & Hbar & Hlookup); [change (length bars) with 6%nat; lia|].
  exists bar. split_and!; try done.
  - intros Hlow.
    assert (Qfloor (state * 5) < 1) as Hfloor.
    { pose proof (Qfloor_le (state * 5)) as Hle.
      assert (inject_Z (Qfloor (state * 5)) < inject_Z 1)%Q as Hlt
        by (change (inject_Z 1) with 1%Q; lra).
      by rewrite <- Zlt_Qlt in Hlt. }
    replace (Z.min (Qfloor (state * 5)) 5) with 0 in Hlookup by lia. done.
  - intros Hhigh.
    assert (5 ≤ Qfloor (state * 5)) as Hfloor.
    { change 5 with (Qfloor (inject_Z 5)) at 1. apply Qfloor_resp_le.
      change (inject_Z 5) with 5%Q. lra. }
    replace (Z.min (Qfloor (state * 5)) 5) with 5 in Hlookup by lia. done.
Qed.

Lemma bar_of_state_level_witness :
  ∃ bar, bar_of_state 2 = Ok bar ∧ bars !! 5%nat = Some bar.
Proof.
  destruct (bar_of_state_level 2) as (bar & Hbar & _ & _ & Hfull);
    [by vm_compute|].
  exists bar. split; [exact Hbar|]. apply Hfull. by vm_compute.
Defined.

Lemma py_int_nonpos_bounds (x : Q) :
  (x <= 0)%Q →
  (∀ k, (x <= inject_Z k)%Q → k ≤ 0 → py_int x ≤ k)
  ∧ (∀ k, (inject_Z k < x)%Q → k < py_int x).
Proof.
  destruct x as [n d]. unfold Qle, Qlt, py_int. simpl. intros Hn.
  assert (n ≤ 0) as Hn' by lia.
  pose proof (Z.quot_rem' n (Z.pos d)) as Hqr.
  pose proof (Z.rem_bound_pos_neg n (Z.pos d) ltac:(lia) Hn') as Hrem.
  split; intros k Hk; nia.
Qed.

(** X23.  Negative strengths.  A strength between -0.2 and 0 gets the empty
    bar, since [int] rounds towards zero.  From -0.2 down to above -1.4 the
    negative index counts from the end of the bars, so -0.2 shows the full
    bar.  At -1.4 and below the index is out of range and building the
    status block raises [IndexError]. *)
Theorem bar_of_state_negative (state : Q) :
  (state <= 0)%Q →
  ((-1 # 5 < state)%Q → bar_of_state state = Ok "░░░░░░░░░░")
  ∧ ((-7 # 5 < state)%Q → (state <= -1 # 5)%Q →
     ∃ bar, bar_of_state state = Ok bar
            ∧ bars !! Z.to_nat (6 + py_int (state * 5)) = Some bar
            ∧ -6 ≤ py_int (state * 5) ≤ -1)
  ∧ ((state <= -7 # 5)%Q → bar_of_state state = Raise IndexError).
Proof.
  intros Hneg.
  assert (state * 5 <= 0)%Q as H5 by lra.
  destruct (py_int_nonpos_bounds _ H5) as [Hupper Hlower].
  unfold bar_of_state. cbv zeta. split_and!.
  - intros Hs.
    assert (py_int (state * 5) = 0) as ->.
    { pose proof (Hupper 0 H5 ltac:(lia)).
      pose proof (Hlower (-1) ltac:(change (inject_Z (-1)) with (-1)%Q; lra)).
      lia. }
    reflexivity.
  - intros Hlo Hhi.
    assert (-6 ≤ py_int (state * 5) ≤ -1) as Hrange.
    { pose proof (Hupper (-1) ltac:(change (inject_Z (-1)) with (-1)%Q; lra)
                    ltac:(lia)).
      pose proof (Hlower (-7) ltac:(change (inject_Z (-7)) with (-7)%Q; lra)).
      lia. }
    rewrite Z.min_l by lia. unfold py_index.
    change (Z.of_nat (length bars)) with 6.
    destruct (py_int (state * 5) <? 0) eqn:E0; [|apply Z.ltb_ge in E0; lia].
    destruct (py_int (state * 5) + 6 <? 0) eqn:E1; [apply Z.ltb_lt in E1; lia|].
    destruct (6 <=? py_int (state * 5) + 6) eqn:E2; [apply Z.leb_le in E2; lia|].
    simpl. rewrite Z.add_comm.
    destruct (lookup_lt_is_Some_2 bars (Z.to_nat (6 + py_int (state * 5))))
      as [bar Hbar]; [change (length bars) with 6%nat; lia|].
    rewrite Hbar. by exists bar.
  - intros Hs.
    assert (py_int (state * 5) ≤ -7) as Hrange
      by (apply Hupper; [change (inject_Z (-7)) with (-7)%Q; lra|lia]).
    rewrite Z.min_l by lia. unfold py_index.
    change (Z.of_nat (length bars)) with 6.
    destruct (py_int (state * 5) <? 0) eqn:E0; [|apply Z.ltb_ge in E0; lia].
    destruct (py_int (state * 5) + 6 <? 0) eqn:E1; [done|].
    apply Z.ltb_ge in E1. lia.
Qed.

Lemma bar_of_state_negative_witness :
  bar_of_state (-1 # 10) = Ok "░░░░░░░░░░"
  ∧ bar_of_state (-3 # 2) = Raise IndexError
  ∧ ∃ bar, bar_of_state (-1 # 5) = Ok bar ∧ bars !! 5%nat = Some bar.
Proof.
  split_and!.
  - destruct (bar_of_state_negative (-1 # 10)) as (H & _ & _); [by vm_compute|].
    apply H. by vm_compute.
  - destruct (bar_of_state_negative (-3 # 2)) as (_ & _ & H); [by vm_compute|].
    apply H. by vm_compute.
  - destruct (bar_of_state_negative (-1 # 5)) as (_ & H & _); [by vm_compute|].
    destruct H as (bar & Hbar & Hlookup & _); [by vm_compute|by vm_compute|].
    exists bar. split; [exact Hbar|exact Hlookup].
Defined.

Lemma bar_of_state_returns (state : Q) :
  (0 <= state)%Q → ∃ bar, bar_of_state state = Ok bar.
Proof.
  intros Hstate. unfold bar_of_state. cbv zeta.
  assert (0 <= state * 5)%Q as H5 by lra.
  destruct (py_int_nonneg _ H5) as [_ Hpos].
  destruct (py_index_in_range bars (Z.min (py_int (state * 5)) 5))
    as (bar & Hbar & _); [change (length bars) with 6%nat; lia|].
  by exists bar.
Qed.

Lemma debug_rows_from_spec (k : nat) (rows : list (string * Q)) :
  Forall (fun row => 0 <= row.2)%Q rows →
  ∃ out, debug_rows_from k rows = Ok out
         ∧ length out = length rows
         ∧ ∀ i n name bar,
             out !! i = Some (n, name, bar) →
             n = S (k + i)
             ∧ ∃ state, rows !! i = Some (name, state)
                        ∧ bar_of_state state = Ok bar.
Proof.
  intros Hall. revert k. induction Hall as [|[name state] rows Hs _ IH];
    intros k; simpl.
  { exists []. by split_and!. }
  destruct (bar_of_state_returns state Hs) as (bar & Hbar). rewrite Hbar.
  destruct (IH (S k)) as (out & -> & Hlen & Hrows). simpl.
  eexists. split; [done|]. split; [simpl; by rewrite Hlen|].
  intros [|i] n name' bar' Hi; simpl in Hi.
  - injection Hi as <- <- <-. split; [lia|]. by exists state.
  - destruct (Hrows i n name' bar' Hi) as (-> & Hrest).
    split; [lia|done].
Qed.

(** X24.  For strengths that are not negative the status block has one row
    per strength, at most four: row i is numbered i + 1, carries the i-th
    track name and the bar of the i-th strength; strengths beyond the
    fourth are not shown. *)
Theorem debug_rows_one_per_track (track_states : list Q) :
  Forall (fun x => 0 <= x)%Q track_states →
  ∃ rows,
    debug_rows track_states = Ok rows
    ∧ length rows = (length track_states `min` 4)%nat
    ∧ ∀ i n name bar,
        rows !! i = Some (n, name, bar) →
        n = S i
        ∧ track_names !! i = Some name
        ∧ ∃ state, track_states !! i = Some state
                   ∧ bar_of_state state = Ok bar.
Proof.
  intros Hall. unfold debug_rows.
  destruct (debug_rows_from_spec 0 (zip track_names track_states))
    as (rows & Hrows & Hlen & Hrow).
  { apply Forall_forall. intros [name state] Hin. simpl.
    apply list_elem_of_lookup in Hin as [i Hi].
    apply lookup_zip_Some in Hi as [_ Hi].
    eapply (proj1 (Forall_forall _ _) Hall). by eapply list_elem_of_lookup_2. }
  exists rows. split; [done|]. split.
  - rewrite Hlen, length_zip. change (length track_names) with 4%nat. lia.
  - intros i n name bar Hi.
    destruct (Hrow i n name bar Hi) as (-> & state & Hzip & Hbar).
    apply lookup_zip_Some in Hzip as [Hname Hstate].
    split; [done|]. split; [done|]. by exists state.
Qed.

Lemma debug_rows_one_per_track_witness :
  ∃ rows, debug_rows [1; 0; (1 # 2); 2; 1]%Q = Ok rows ∧ length rows = 4%nat.
Proof.
  destruct (debug_rows_one_per_track [1; 0; (1 # 2); 2; 1]%Q)
    as (rows & Hrows & Hlen & _).
  - repeat constructor; by vm_compute.
  - exists rows. split; [exact Hrows|exact Hlen].
Defined.

(** ** The installer *)

Lemma install_package_run (pip : string → PipOutcome) (package : string)
    (out : list InstallerLine) :
  pip package ≠ PipNotRun →
  install_package pip package out
  = (out ++ attempt_lines pip package, Ok (pip_done pip package)).
Proof.
  intros Hrun. unfold install_package, attempt_lines, pip_done, mbind',
    print_line, mret'.
  destruct (pip package); try done; by rewrite <- app_assoc.
Qed.

Lemma install_each_run (pip : string → PipOutcome) (packages : list string)
    (count : nat) (out : list InstallerLine) :
  (∀ p, p ∈ packages → pip p ≠ PipNotRun) →
  install_each pip packages count out
  = (out ++ flat_map (attempt_lines pip) packages,
     Ok (count + length (List.filter (pip_done pip) packages))%nat).
Proof.
  revert count out. induction packages as [|p packages IH];
    intros count out Hrun; simpl.
  { unfold mret'. by rewrite app_nil_r, Nat.add_0_r. }
  unfold mbind'. rewrite install_package_run by (apply Hrun; by left).
  rewrite IH by (intros q Hq; apply Hrun; by right).
  rewrite <- app_assoc. f_equal. f_equal.
  destruct (pip_done pip p); simpl; lia.
Qed.

Lemma for_each_print {A} (f : A → InstallerLine) (l : list A)
    (out : list InstallerLine) :
  for_each l (fun x => print_line (f x)) out = (out ++ (f <$> l), Ok tt).
Proof.
  revert out. induction l as [|x l IH]; intros out; simpl.
  { unfold mret'. by rewrite app_nil_r. }
  unfold mbind', print_line. rewrite IH. by rewrite <- app_assoc.
Qed.

Lemma filter_all_length {A} (f : A → bool) (l : list A) :
  length (List.filter f l) = length l ↔ forallb f l = true.
Proof.
  induction l as [|x l IH]; simpl; [done|].
  pose proof (filter_length_le f l) as Hle.
  destruct (f x); simpl.
  - rewrite <- IH. lia.
  - split; [lia|done].
Qed.

(** X25.  When pip can be run for every package, the installer tries every
    package in order, also after a failure, and then prints the count of
    those that installed out of all.  It reports success exactly when every
    package installed; otherwise it lists every package for manual
    installation, those that installed included. *)
Theorem install_main_report (pip : string → PipOutcome)
    (packages : list string) (out : list InstallerLine) :
  (∀ p, p ∈ packages → pip p ≠ PipNotRun) →
  install_main pip packages out
  = (out ++ flat_map (attempt_lines pip) packages
         ++ Summary (length (List.filter (pip_done pip) packages))
                    (length packages)
         :: (if forallb (pip_done pip) packages
             then [AllInstalled]
             else SomeFailed :: (InstallManually <$> packages)),
     Ok tt).
Proof.
  intros Hrun. unfold install_main, mbind'.
  rewrite install_each_run by done. simpl. unfold print_line at 1.
  pose proof (filter_all_length (pip_done pip) packages) as Hall.
  destruct (Nat.eqb_spec (length (List.filter (pip_done pip) packages))
                         (length packages)) as [E|E].
  - rewrite (proj1 Hall E). unfold print_line.
    by rewrite <- !app_assoc.
  - destruct (forallb (pip_done pip) packages); [by destruct E; apply Hall|].
    rewrite (for_each_print InstallManually).
    by rewrite <- !app_assoc.
Qed.

Lemma install_main_report_witness :
  main (fun p => if String.eqb p "mido>=1.2.10" then PipExit else PipDone) []
  = ([Installing "mido>=1.2.10"; FailedToInstall "mido>=1.2.10";
      Installing "python-rtmidi>=1.4.0"; Installed "python-rtmidi>=1.4.0";
      Summary 1 2; SomeFailed;
      InstallManually "mido>=1.2.10"; InstallManually "python-rtmidi>=1.4.0"],
     Ok tt).
Proof.
  unfold main.
  rewrite (install_main_report
             (fun p => if String.eqb p "mido>=1.2.10" then PipExit else PipDone)
             required_packages []).
  - reflexivity.
  - intros p Hp. by destruct (String.eqb p "mido>=1.2.10").
Defined.

(** X26.  When pip cannot be run at all for a package, the exception is
    not caught: the installer stops right after announcing that package,
    with the attempts before it printed, no summary, and the packages
    after it never tried. *)
Theorem install_main_stops_when_pip_missing (pip : string → PipOutcome)
    (before after : list string) (package : string)
    (out : list InstallerLine) :
  (∀ p, p ∈ before → pip p ≠ PipNotRun) →
  pip package = PipNotRun →
  install_main pip (before ++ package :: after) out
  = (out ++ flat_map (attempt_lines pip) before ++ [Installing package],
     Raise OSError).
Proof.
  intros Hrun Hmissing. unfold install_main, mbind'.
  assert (∀ count out0,
            install_each pip (before ++ package :: after) count out0
            = (out0 ++ flat_map (attempt_lines pip) before
                    ++ [Installing package], Raise OSError)) as ->; [|done].
  clear out. induction before as [|p before IH]; intros count out0; simpl.
  - unfold mbind', install_package, mbind', print_line. by rewrite Hmissing.
  - unfold mbind'. rewrite install_package_run by (apply Hrun; by left).
    rewrite IH by (intros q Hq; apply Hrun; by right).
    by rewrite <- !app_assoc.
Qed.

Lemma install_main_stops_when_pip_missing_witness :
  main (fun p => if String.eqb p "mido>=1.2.10" then PipDone else PipNotRun) []
  = ([Installing "mido>=1.2.10"; Installed "mido>=1.2.10";
      Installing "python-rtmidi>=1.4.0"], Raise OSError).
Proof.
  unfold main.
  apply (install_main_stops_when_pip_missing
           (fun p => if String.eqb p "mido>=1.2.10" then PipDone else PipNotRun)
           ["mido>=1.2.10"] [] "python-rtmidi>=1.4.0" []).
  - intros p Hp. apply list_elem_of_In in Hp. simpl in Hp.
    destruct Hp as [<-|[]]. discriminate.
  - reflexivity.
Defined.

(** ** Overlapping notes *)

Lemma find_note_off_skip (e : MidiEvent) (skipped later : list MidiEvent) :
  (∀ x, x ∈ skipped → ¬ ends_note e x) →
  find_note_off (note e) (skipped ++ later) = find_note_off (note e) later.
Proof.
  induction skipped as [|y skipped IH]; intros Hnone; [done|].
  simpl. destruct (_ && _) eqn:E.
  - exfalso. apply (Hnone y); [by left|]. by apply ends_note_test.
  - apply IH. intros x Hx. apply Hnone. by right.
Qed.

(** X27.  Overlapping notes of one pitch share their end: when a second
    NoteOn of the same note number comes before any event that ends the
    first, both are paired with the same ending event, so both stop being
    active at the same tick position. *)
Theorem overlapping_notes_share_note_off
    (track_data : list MidiEvent) (i k : nat) (e1 e2 : MidiEvent) :
  (i < k)%nat →
  track_data !! i = Some e1 →
  track_data !! k = Some e2 →
  note e2 = note e1 →
  (∀ j x, (i < j ≤ k)%nat → track_data !! j = Some x → ¬ ends_note e1 x) →
  note_off_time track_data i e1 = note_off_time track_data k e2.
Proof.
  intros Hik H1 H2 Hnote Hbetween. unfold note_off_time. rewrite Hnote.
  assert (drop (S i) track_data
          = take (k - i) (drop (S i) track_data) ++ drop (S k) track_data) as ->.
  { rewrite <- (take_drop (k - i) (drop (S i) track_data)) at 1.
    rewrite drop_drop. do 2 f_equal. lia. }
  apply find_note_off_skip. intros x Hx.
  apply list_elem_of_lookup in Hx as [j Hj].
  apply lookup_take_Some in Hj as [Hj Hlt]. rewrite lookup_drop in Hj.
  apply (Hbetween (S i + j)%nat x); [lia|done].
Qed.

Lemma overlapping_notes_share_note_off_witness :
  note_off_time
    [mkEvent 0 note_on 60 100; mkEvent 240 note_on 60 80;
     mkEvent 480 note_off 60 0; mkEvent 960 note_off 60 0]
    0 (mkEvent 0 note_on 60 100)
  = note_off_time
      [mkEvent 0 note_on 60 100; mkEvent 240 note_on 60 80;
       mkEvent 480 note_off 60 0; mkEvent 960 note_off 60 0]
      1 (mkEvent 240 note_on 60 80).
Proof.
  apply (overlapping_notes_share_note_off
           [mkEvent 0 note_on 60 100; mkEvent 240 note_on 60 80;
            mkEvent 480 note_off 60 0; mkEvent 960 note_off 60 0] 0 1).
  - lia.
  - reflexivity.
  - reflexivity.
  - reflexivity.
  - intros j x Hj Hx. assert (j = 1%nat) as -> by lia.
    injection Hx as <-. intros [_ [H|H]]; discriminate H.
Defined.

Lemma control_hint_of_shape_witness :
  ∃ hint, control_hint_of (mkTensor [64; 48; 3]%nat 40) = Ok hint
          ∧ shape hint = [1; 3; 64; 48]%nat ∧ storage hint = 40%nat.
Proof.
  destruct (control_hint_of_shape (mkTensor [64; 48; 3]%nat 40)) as [_ Hok].
  destruct (Hok (mkTensor [1; 3; 64; 48]%nat 40) eq_refl)
    as (Hstorage & _ & _ & _ & H3).
  exists (mkTensor [1; 3; 64; 48]%nat 40).
  split; [reflexivity|]. split; [exact (H3 64 48 3 eq_refl)%nat|exact Hstorage].
Defined.
